(** * The Huffman codec of [compressor/compression_methods/huffman.py]

    A shallow embedding of the codec (frequency counting, tree
    construction on a binary heap, code assignment, text and tree
    encoding, the 16-byte container header) together with the properties
    of its specification.

    Conventions of the embedding.
    - A Python [str] is a list of code points ([Z]); a [bytes] object is a
      list of [byte]; a [bitarray] is a list of [bool] ([true] is bit 1).
    - A Python [int] is a [Z].
    - A call that may raise returns an [outcome]; the exceptions are the
      constructors of [exn].
    - [while] loops and the non-structural recursion of [decode_tree] take
      a step bound; running out of it is the constructor [OutOfFuel], which is
      not a Python exception.  The top-level functions pass a bound that is
      proved sufficient.
    - Streams are explicit: a readable stream is its content and a cursor,
      a writable stream is what has been written to it so far.
    - The standard library ([heapq], [list.sort], [int.to_bytes], the
      UTF-8 codec) and [bitarray] are modelled by functions with the
      behaviour of the originals.  The recursion limit of the interpreter
      and the size of its memory are not modelled. *)

From Stdlib Require Import ZArith List Lia Permutation.
From Stdlib Require Import Strings.Byte.
From stdpp Require Import base option list gmap sorting.

(** ** Python values *)

Abbreviation str := (list Z).
Abbreviation bytes := (list byte).
Abbreviation bitarray := (list bool).

Inductive exn : Type :=
| CompressionMethodError
| ValueError
| IndexError
| KeyError
| UnicodeDecodeError
| UnicodeEncodeError
| OverflowError
| OutOfFuel.

Inductive outcome (A : Type) : Type :=
| Ok (a : A)
| Raise (e : exn).
Arguments Ok {A} a.
Arguments Raise {A} e.

#[global] Instance outcome_ret : MRet outcome := λ A a, Ok a.
#[global] Instance outcome_bind : MBind outcome := λ A B f m,
  match m with
  | Ok a => f a
  | Raise e => Raise e
  end.

(** [l[i]] and [l[i] = x] on a Python list, for a non-negative index. *)
Definition getitem {A} (l : list A) (i : nat) : outcome A :=
  match l !! i with
  | Some x => Ok x
  | None => Raise IndexError
  end.

Definition setitem {A} (l : list A) (i : nat) (x : A) : outcome (list A) :=
  if decide (i < length l)%nat then Ok (<[i:=x]> l) else Raise IndexError.

(** ** [heapq]: the binary min-heap of the Python standard library

    [heappush] and [heappop] with their two sifting loops, as in
    [Lib/heapq.py]; elements are compared with [lt] only ([__lt__]). *)

Module heapq.
Section Heap.
Context {A : Type} (lt : A → A → bool).

(** The loop of [_siftdown]: [newitem] moves towards the root while it is
    less than the parent of the hole at [pos]. *)
Fixpoint _siftdown_loop (fuel : nat) (heap : list A) (newitem : A)
    (startpos pos : nat) : outcome (list A * nat) :=
  if decide (startpos < pos)%nat then
    match fuel with
    | O => Raise OutOfFuel
    | S fuel' =>
        let parentpos := ((pos - 1) / 2)%nat in
        parent ← getitem heap parentpos;
        if lt newitem parent then
          heap' ← setitem heap pos parent;
          _siftdown_loop fuel' heap' newitem startpos parentpos
        else Ok (heap, pos)
    end
  else Ok (heap, pos).

Definition _siftdown (heap : list A) (startpos pos : nat) : outcome (list A) :=
  newitem ← getitem heap pos;
  '(heap', pos') ← _siftdown_loop pos heap newitem startpos pos;
  setitem heap' pos' newitem.

Definition heappush (heap : list A) (item : A) : outcome (list A) :=
  let heap' := heap ++ [item] in
  _siftdown heap' 0 (length heap' - 1).

(** The loop of [_siftup]: the smaller child moves up into the hole at
    [pos] until the hole is at a leaf. *)
Fixpoint _siftup_loop (fuel : nat) (heap : list A) (endpos pos childpos : nat)
    : outcome (list A * nat) :=
  if decide (childpos < endpos)%nat then
    match fuel with
    | O => Raise OutOfFuel
    | S fuel' =>
        let rightpos := (childpos + 1)%nat in
        childpos' ←
          (if decide (rightpos < endpos)%nat then
             c ← getitem heap childpos;
             r ← getitem heap rightpos;
             Ok (if negb (lt c r) then rightpos else childpos)
           else Ok childpos);
        child ← getitem heap childpos';
        heap' ← setitem heap pos child;
        _siftup_loop fuel' heap' endpos childpos' (2 * childpos' + 1)%nat
    end
  else Ok (heap, pos).

Definition _siftup (heap : list A) (pos : nat) : outcome (list A) :=
  let endpos := length heap in
  let startpos := pos in
  newitem ← getitem heap pos;
  '(heap', pos') ← _siftup_loop endpos heap endpos pos (2 * pos + 1)%nat;
  heap'' ← setitem heap' pos' newitem;
  _siftdown heap'' startpos pos'.

(** [heap.pop()]: the last element and the list without it. *)
Definition list_pop (heap : list A) : outcome (A * list A) :=
  match last heap with
  | Some x => Ok (x, removelast heap)
  | None => Raise IndexError
  end.

Definition heappop (heap : list A) : outcome (A * list A) :=
  '(lastelt, heap') ← list_pop heap;
  match heap' with
  | _ :: _ =>
      returnitem ← getitem heap' 0;
      heap'' ← setitem heap' 0 lastelt;
      heap''' ← _siftup heap'' 0;
      Ok (returnitem, heap''')
  | [] => Ok (lastelt, heap')
  end.
End Heap.
End heapq.

(** ** [HuffmanTreeNode] *)

#[local] Unset Elimination Schemes.
Inductive HuffmanTreeNode : Type :=
  mkNode { char : str;
           freq : Z;
           left : option HuffmanTreeNode;
           right : option HuffmanTreeNode;
           code : bitarray }.
#[local] Set Elimination Schemes.

(** [HuffmanTreeNode(char, freq, left, right)]: [__init__] sets [code] to the
    empty bitarray. *)
Definition new_node (char : str) (freq : Z)
    (left right : option HuffmanTreeNode) : HuffmanTreeNode :=
  mkNode char freq left right [].

(** [__lt__]: nodes are ordered by frequency alone. *)
Definition node_lt (self other : HuffmanTreeNode) : bool :=
  (freq self <? freq other)%Z.

(** [code_tree]: [code or bitarray()] is [code] itself, an empty bitarray
    being the only falsy one. *)
Fixpoint code_tree (self : HuffmanTreeNode) (code : bitarray) : HuffmanTreeNode :=
  match self with
  | mkNode c f (Some l) (Some r) _ =>
      mkNode c f (Some (code_tree l (code ++ [true])))
                 (Some (code_tree r (code ++ [false]))) code
  | mkNode c f l r _ => mkNode c f l r code
  end.

(** ** [Huffman._build_huffman_tree] *)

(** The [for] loop: one leaf is pushed for each entry. *)
Fixpoint _build_init (freq_list : list (Z * str)) (nodes : list HuffmanTreeNode)
    : outcome (list HuffmanTreeNode) :=
  match freq_list with
  | [] => Ok nodes
  | (f, c) :: rest =>
      nodes' ← heapq.heappush node_lt nodes (new_node c f None None);
      _build_init rest nodes'
  end.

(** The [while] loop: the two nodes popped first become the children of
    the node pushed, [left] the first one. *)
Fixpoint _build_merge (fuel : nat) (nodes : list HuffmanTreeNode)
    : outcome (list HuffmanTreeNode) :=
  if decide (1 < length nodes)%nat then
    match fuel with
    | O => Raise OutOfFuel
    | S fuel' =>
        '(l, nodes1) ← heapq.heappop node_lt nodes;
        '(r, nodes2) ← heapq.heappop node_lt nodes1;
        nodes3 ← heapq.heappush node_lt nodes2
                   (new_node (char l ++ char r) (freq l + freq r) (Some l) (Some r));
        _build_merge fuel' nodes3
    end
  else Ok nodes.

Definition _build_huffman_tree (freq_list : list (Z * str))
    : outcome (option HuffmanTreeNode) :=
  if decide (length freq_list = 0%nat) then Ok None
  else
    nodes ← _build_init freq_list [];
    nodes' ← _build_merge (length nodes) nodes;
    '(huffman_tree, _) ← heapq.heappop node_lt nodes';
    Ok (Some huffman_tree).

(** ** [Huffman._count_frequencies]

    [text] is what [text.read()] returns.  Iterating over it yields
    one-character strings, the keys of [freq_dict].  The items of the
    dictionary are taken in the order of [map_to_list]; the sorted list is
    the same for every order (lemma [sort_reverse_order]). *)

(** [<] on [str]: lexicographic on code points. *)
Fixpoint str_lt (a b : str) : bool :=
  match a, b with
  | _, [] => false
  | [], _ :: _ => true
  | x :: a', y :: b' =>
      if (x <? y)%Z then true
      else if (y <? x)%Z then false
      else str_lt a' b'
  end.

(** [<] on the tuples [(freq, char)]: first components first. *)
Definition tuple_lt (p q : Z * str) : bool :=
  if (fst p <? fst q)%Z then true
  else if (fst q <? fst p)%Z then false
  else str_lt (snd p) (snd q).

(** [list.sort(reverse=True)]: CPython reverses the list, sorts it stably
    in ascending order with [<] and reverses the outcome. *)
Fixpoint sort_insert (x : Z * str) (l : list (Z * str)) : list (Z * str) :=
  match l with
  | [] => [x]
  | y :: l' => if tuple_lt y x then y :: sort_insert x l' else x :: y :: l'
  end.

Definition stable_sort (l : list (Z * str)) : list (Z * str) :=
  foldr sort_insert [] l.

Definition sort_reverse (l : list (Z * str)) : list (Z * str) :=
  rev (stable_sort (rev l)).

Definition count_char (freq_dict : gmap str Z) (c : Z) : gmap str Z :=
  <[ [c] := (default 0 (freq_dict !! [c]) + 1)%Z ]> freq_dict.

Definition _count_frequencies (text : str) : list (Z * str) :=
  let freq_dict := foldl count_char ∅ text in
  let freq_list := (λ cf : str * Z, (cf.2, cf.1)) <$> map_to_list freq_dict in
  sort_reverse freq_list.

(** ** [Huffman._get_codes]

    The closure [traverse] updates the dictionary [codes] of the enclosing
    call; here the dictionary is threaded through the walk. *)

Fixpoint traverse (node : HuffmanTreeNode) (code : bitarray)
    (codes : gmap str (option bitarray)) : gmap str (option bitarray) :=
  match node with
  | mkNode _ _ (Some l) (Some r) _ =>
      traverse r (code ++ [true]) (traverse l (code ++ [false]) codes)
  | mkNode c _ _ _ _ => <[c := Some code]> codes
  end.

(** [_get_codes] also assigns [code] to every node of its argument
    ([code_tree]); the updated tree is returned with the table. *)
Definition _get_codes (huffman_tree : HuffmanTreeNode)
    : HuffmanTreeNode * gmap str (option bitarray) :=
  let huffman_tree' := code_tree huffman_tree [] in
  (huffman_tree', traverse huffman_tree' [] ∅).

(** ** [Huffman._encode_text]

    [text] is the rest of the stream, read one character at a time. *)

(** The [while] loop: a character without an entry raises [KeyError], an
    entry [None] raises [ValueError]. *)
Fixpoint _encode_text_loop (text : str) (huffman_codes : gmap str (option bitarray))
    (result : bitarray) : outcome bitarray :=
  match text with
  | [] => Ok result
  | c :: text' =>
      match huffman_codes !! [c] with
      | None => Raise KeyError
      | Some None => Raise ValueError
      | Some (Some code) => _encode_text_loop text' huffman_codes (result ++ code)
      end
  end.

Definition _encode_text (text : str) (huffman_codes : gmap str (option bitarray))
    : outcome bitarray :=
  _encode_text_loop text huffman_codes [].

(** ** Bytes, integers and the UTF-8 codec *)

Definition Z_of_byte (b : byte) : Z := Z.of_N (Byte.to_N b).
Definition byte_of_Z (z : Z) : byte := default x00 (Byte.of_N (Z.to_N z)).

(** [int.to_bytes(length, byteorder="big", signed=False)] *)
Fixpoint be_bytes (length : nat) (n : Z) : bytes :=
  match length with
  | O => []
  | S k => be_bytes k (n / 256) ++ [byte_of_Z (n mod 256)]
  end.

Definition to_bytes (n : Z) (length : nat) : outcome bytes :=
  if decide (0 ≤ n < 256 ^ Z.of_nat length)%Z then Ok (be_bytes length n)
  else Raise OverflowError.

(** [int.from_bytes(bytes, byteorder="big", signed=False)] *)
Definition from_bytes (bs : bytes) : Z :=
  foldl (λ acc b, acc * 256 + Z_of_byte b)%Z 0%Z bs.

(** [str.encode("utf-8")].  Surrogates have no encoding; a number outside
    the code space is not a character of any [str]. *)
Definition utf8_encode_char (c : Z) : outcome bytes :=
  if decide (0 ≤ c < 0x80)%Z then Ok [byte_of_Z c]
  else if decide (0x80 ≤ c < 0x800)%Z then
    Ok [byte_of_Z (0xC0 + c / 64); byte_of_Z (0x80 + c mod 64)]
  else if decide (0xD800 ≤ c < 0xE000)%Z then Raise UnicodeEncodeError
  else if decide (0x800 ≤ c < 0x10000)%Z then
    Ok [byte_of_Z (0xE0 + c / 4096); byte_of_Z (0x80 + c / 64 mod 64);
        byte_of_Z (0x80 + c mod 64)]
  else if decide (0x10000 ≤ c < 0x110000)%Z then
    Ok [byte_of_Z (0xF0 + c / 262144); byte_of_Z (0x80 + c / 4096 mod 64);
        byte_of_Z (0x80 + c / 64 mod 64); byte_of_Z (0x80 + c mod 64)]
  else Raise UnicodeEncodeError.

Fixpoint utf8_encode (s : str) : outcome bytes :=
  match s with
  | [] => Ok []
  | c :: s' =>
      b ← utf8_encode_char c;
      bs ← utf8_encode s';
      Ok (b ++ bs)
  end.

(** [bytes.decode("utf-8")], strict: continuation bytes are checked, and
    overlong forms, surrogates and values above U+10FFFF are refused. *)
Definition is_cont (b : byte) : bool :=
  (0x80 <=? Z_of_byte b)%Z && (Z_of_byte b <? 0xC0)%Z.
Definition cont_bits (b : byte) : Z := (Z_of_byte b - 0x80)%Z.

Fixpoint utf8_decode (bs : bytes) : outcome str :=
  match bs with
  | [] => Ok []
  | b0 :: r0 =>
      let z0 := Z_of_byte b0 in
      if (z0 <? 0x80)%Z then
        s ← utf8_decode r0; Ok (z0 :: s)
      else if (z0 <? 0xC0)%Z then Raise UnicodeDecodeError
      else if (z0 <? 0xE0)%Z then
        match r0 with
        | b1 :: r1 =>
            let c := ((z0 - 0xC0) * 64 + cont_bits b1)%Z in
            if is_cont b1 && (0x80 <=? c)%Z then
              s ← utf8_decode r1; Ok (c :: s)
            else Raise UnicodeDecodeError
        | _ => Raise UnicodeDecodeError
        end
      else if (z0 <? 0xF0)%Z then
        match r0 with
        | b1 :: b2 :: r2 =>
            let c := ((z0 - 0xE0) * 4096 + cont_bits b1 * 64 + cont_bits b2)%Z in
            if is_cont b1 && is_cont b2 && (0x800 <=? c)%Z
               && negb ((0xD800 <=? c)%Z && (c <? 0xE000)%Z) then
              s ← utf8_decode r2; Ok (c :: s)
            else Raise UnicodeDecodeError
        | _ => Raise UnicodeDecodeError
        end
      else
        match r0 with
        | b1 :: b2 :: b3 :: r3 =>
            let c := ((z0 - 0xF0) * 262144 + cont_bits b1 * 4096
                      + cont_bits b2 * 64 + cont_bits b3)%Z in
            if is_cont b1 && is_cont b2 && is_cont b3
               && (0x10000 <=? c)%Z && (c <? 0x110000)%Z then
              s ← utf8_decode r3; Ok (c :: s)
            else Raise UnicodeDecodeError
        | _ => Raise UnicodeDecodeError
        end
  end.

(** ** [bitarray]: big-endian bit order, the library's default *)

(** [bitarray.padbits]: the bits that fill the last byte. *)
Definition padbits (a : bitarray) : Z :=
  ((8 - Z.of_nat (length a) mod 8) mod 8)%Z.

Definition byte_of_bits8 (b7 b6 b5 b4 b3 b2 b1 b0 : bool) : byte :=
  Byte.of_bits (b0, (b1, (b2, (b3, (b4, (b5, (b6, b7))))))).

Definition bits8_of_byte (b : byte) : bitarray :=
  let '(b0, (b1, (b2, (b3, (b4, (b5, (b6, b7))))))) := Byte.to_bits b in
  [b7; b6; b5; b4; b3; b2; b1; b0].

(** [bitarray.tobytes()]: the last byte is filled with zero bits. *)
Fixpoint tobytes (a : bitarray) : bytes :=
  match a with
  | [] => []
  | b7 :: b6 :: b5 :: b4 :: b3 :: b2 :: b1 :: b0 :: rest =>
      byte_of_bits8 b7 b6 b5 b4 b3 b2 b1 b0 :: tobytes rest
  | [b7; b6; b5; b4; b3; b2; b1] => [byte_of_bits8 b7 b6 b5 b4 b3 b2 b1 false]
  | [b7; b6; b5; b4; b3; b2] => [byte_of_bits8 b7 b6 b5 b4 b3 b2 false false]
  | [b7; b6; b5; b4; b3] => [byte_of_bits8 b7 b6 b5 b4 b3 false false false]
  | [b7; b6; b5; b4] => [byte_of_bits8 b7 b6 b5 b4 false false false false]
  | [b7; b6; b5] => [byte_of_bits8 b7 b6 b5 false false false false false]
  | [b7; b6] => [byte_of_bits8 b7 b6 false false false false false false]
  | [b7] => [byte_of_bits8 b7 false false false false false false false]
  end.

(** [bitarray.frombytes(bs)] on an empty bitarray. *)
Definition frombytes (bs : bytes) : bitarray :=
  concat (bits8_of_byte <$> bs).

(** The slice [a[:-n]] for [n > 0]: an empty bitarray when [n] exceeds the
    length. *)
Definition drop_last (n : nat) (a : bitarray) : bitarray :=
  take (length a - n) a.

(** ** [Huffman._encode_tree] *)

Definition tag_leaf : byte := "1"%byte.
Definition tag_internal : byte := "0"%byte.

Fixpoint encode_tree (node : HuffmanTreeNode) : outcome bytes :=
  match node with
  | mkNode _ _ None (Some _) _ | mkNode _ _ (Some _) None _ => Raise ValueError
  | mkNode c _ None None _ =>
      e ← utf8_encode c; Ok (tag_leaf :: e)
  | mkNode _ _ (Some l) (Some r) _ =>
      a ← encode_tree l;
      b ← encode_tree r;
      Ok (tag_internal :: a ++ b)
  end.

Definition _encode_tree (huffman_tree : HuffmanTreeNode) : outcome bytes :=
  encode_tree huffman_tree.

(** ** [Huffman._decode_tree]

    [decode_tree] calls itself on the remainder that its first call
    returns; [fuel] bounds the depth of the calls. *)

Fixpoint decode_tree (fuel : nat) (tree_str : str)
    : outcome (option HuffmanTreeNode * str) :=
  match fuel with
  | O => Raise OutOfFuel
  | S fuel' =>
      match tree_str with
      | [] => Ok (None, tree_str)
      | c0 :: rest =>
          if decide (c0 = 49%Z) then
            match rest with
            | ch :: rest' => Ok (Some (new_node [ch] 0 None None), rest')
            | [] => Raise IndexError
            end
          else
            '(l, tree_str1) ← decode_tree fuel' rest;
            '(r, tree_str2) ← decode_tree fuel' tree_str1;
            Ok (Some (new_node [] 0 l r), tree_str2)
      end
  end.

Definition _decode_tree (tree_str : str) : outcome (option HuffmanTreeNode) :=
  '(tree, _remaining) ← decode_tree (S (length tree_str)) tree_str;
  Ok tree.

(** ** [Huffman._decode_text] *)

(** The [for] loop over the bits: bit 0 goes to [left], bit 1 to [right];
    a missing child breaks the loop; at a node without children its
    character is appended and the walk restarts at the root. *)
Fixpoint _decode_text_loop (encoded_text : bitarray)
    (huffman_tree current_node : HuffmanTreeNode) (result : list str) : list str :=
  match encoded_text with
  | [] => result
  | bit :: rest =>
      match (if bit then right current_node else left current_node) with
      | None => result
      | Some next =>
          match left next, right next with
          | None, None =>
              _decode_text_loop rest huffman_tree huffman_tree (result ++ [char next])
          | _, _ => _decode_text_loop rest huffman_tree next result
          end
      end
  end.

Definition _decode_text (encoded_text : bitarray) (huffman_tree : HuffmanTreeNode)
    : str :=
  concat (_decode_text_loop encoded_text huffman_tree huffman_tree []).

(** ** [Huffman._decode] *)

Definition _decode (tree_str : str) (encoded_text : bitarray) : outcome str :=
  huffman_tree ← _decode_tree tree_str;
  match huffman_tree with
  | None => Raise ValueError
  | Some tree => Ok (_decode_text encoded_text tree)
  end.

(** ** Streams *)

(** A binary stream open for reading: its content and the cursor. *)
Record BinaryIO : Type := mkBinaryIO { content : bytes; cursor : nat }.

Definition open_bytes (bs : bytes) : BinaryIO := mkBinaryIO bs 0.

(** [read(n)], [read()] and [seek(offset, 0)] *)
Definition read_n (n : nat) (f : BinaryIO) : bytes * BinaryIO :=
  let data := take n (drop (cursor f) (content f)) in
  (data, mkBinaryIO (content f) (cursor f + length data)).

Definition read_all (f : BinaryIO) : bytes * BinaryIO :=
  let data := drop (cursor f) (content f) in
  (data, mkBinaryIO (content f) (cursor f + length data)).

Definition seek (offset : nat) (f : BinaryIO) : BinaryIO :=
  mkBinaryIO (content f) offset.

(** A stream open for writing is the list of the chunks written to it. *)
Abbreviation BinaryOut := (list (list byte)).
Abbreviation TextOut := (list (list Z)).

(** ** [Huffman._read_headers] *)

Definition _read_headers (bin_in : BinaryIO) : outcome (Z * Z) * BinaryIO :=
  let '(header, bin_in) := read_n 16 bin_in in
  let padding_len := from_bytes (take 8 header) in
  let tree_len := from_bytes (drop 8 header) in
  if (padding_len <? 0)%Z || (tree_len <? 0)%Z || (8 <=? padding_len)%Z then
    (Raise CompressionMethodError, bin_in)
  else
    let '(rest, bin_in) := read_all bin_in in
    if (Z.of_nat (length rest) <? tree_len)%Z then
      (Raise CompressionMethodError, bin_in)
    else (Ok (padding_len, tree_len), seek 16 bin_in).

(** ** [Huffman.compress]

    [text_in] is the whole text: the stream is rewound before each of the
    two passes over it.  [_encode_text] returns a bitarray or raises, so
    the test [encoded_text is None] never holds.  No call in the body
    raises [UnicodeDecodeError] once the text is a [str]; the handler is
    kept as written. *)

(** The body of the [try] statement. *)

Definition compress_body (text_in : str) (bin_out : BinaryOut)
    : outcome unit * BinaryOut :=
  let freq_list := _count_frequencies text_in in
  match _build_huffman_tree freq_list with
  | Raise e => (Raise e, bin_out)
  | Ok None => (Ok (), bin_out)
  | Ok (Some tree) =>
      let '(tree, codes) := _get_codes tree in
      match _encode_text text_in codes with
      | Raise e => (Raise e, bin_out)
      | Ok encoded_text =>
          match _encode_tree tree with
          | Raise e => (Raise e, bin_out)
          | Ok encoded_tree =>
              let tree_len := Z.of_nat (length encoded_tree) in
              match to_bytes tree_len 8 with
              | Raise e => (Raise e, bin_out)
              | Ok tree_len_info =>
                  match to_bytes (padbits encoded_text) 8 with
                  | Raise e => (Raise e, bin_out)
                  | Ok padding_len_info =>
                      let header := padding_len_info ++ tree_len_info in
                      (Ok (), bin_out ++ [header; encoded_tree; tobytes encoded_text])
                  end
              end
          end
      end
  end.

Definition compress (text_in : str) (bin_out : BinaryOut)
    : outcome unit * BinaryOut :=
  match compress_body text_in bin_out with
  | (Raise UnicodeDecodeError, bin_out') => (Raise CompressionMethodError, bin_out')
  | r => r
  end.

(** ** [Huffman.decompress] *)

Definition decompress (bin_in : BinaryIO) (text_out : TextOut)
    : outcome unit * TextOut :=
  match _read_headers bin_in with
  | (Raise e, _) => (Raise e, text_out)
  | (Ok (padding_len, tree_len), bin_in) =>
      let '(tree_bytes, bin_in) := read_n (Z.to_nat tree_len) bin_in in
      match utf8_decode tree_bytes with
      | Raise e => (Raise e, text_out)
      | Ok tree_str =>
          let '(encoded_text_bytes, bin_in) := read_all bin_in in
          let encoded_text_bits := frombytes encoded_text_bytes in
          let encoded_text_bits :=
            if (0 <? padding_len)%Z
            then drop_last (Z.to_nat padding_len) encoded_text_bits
            else encoded_text_bits in
          match _decode tree_str encoded_text_bits with
          | Raise e => (Raise e, text_out)
          | Ok decoded_text => (Ok (), text_out ++ [decoded_text])
          end
      end
  end.

(** Compressing a text into a fresh file and decompressing that file into
    a fresh text stream. *)
Definition compressed (text : str) : outcome unit * bytes :=
  let '(r, bin_out) := compress text [] in (r, concat bin_out).

Definition round_trip (text : str) : outcome unit * TextOut :=
  match compressed text with
  | (Raise e, _) => (Raise e, [])
  | (Ok _, file) => decompress (open_bytes file) []
  end.

(** ** Observations on trees *)

(** A node with both children is internal; the walks of the codec treat
    every other node as a leaf. *)
Definition is_internal (n : HuffmanTreeNode) : bool :=
  match left n, right n with
  | Some _, Some _ => true
  | _, _ => false
  end.

(** Every node has no child or two children. *)
Fixpoint full (n : HuffmanTreeNode) : Prop :=
  match n with
  | mkNode _ _ None None _ => True
  | mkNode _ _ (Some l) (Some r) _ => full l ∧ full r
  | _ => False
  end.

(** The leaves from left to right, as [(char, freq)]. *)
Fixpoint leaves (n : HuffmanTreeNode) : list (str * Z) :=
  match n with
  | mkNode _ _ (Some l) (Some r) _ => leaves l ++ leaves r
  | mkNode c f _ _ _ => [(c, f)]
  end.

(** The sum of a list of integers. *)
Fixpoint sumZ (l : list Z) : Z :=
  match l with
  | [] => 0%Z
  | x :: l' => (x + sumZ l')%Z
  end.

(** The frequency of each internal node is the sum of its children's. *)
Fixpoint freq_sums (n : HuffmanTreeNode) : Prop :=
  match n with
  | mkNode _ f (Some l) (Some r) _ => f = (freq l + freq r)%Z ∧ freq_sums l ∧ freq_sums r
  | _ => True
  end.

(** The node pushed for an entry of the frequency list, and the node
    pushed for two popped ones. *)
Definition leaf_node (p : Z * str) : HuffmanTreeNode := new_node p.2 p.1 None None.
Definition merge_nodes (l r : HuffmanTreeNode) : HuffmanTreeNode :=
  new_node (char l ++ char r) (freq l + freq r) (Some l) (Some r).

(** An entry [(freq, char)] as the leaf [(char, freq)]. *)
Definition swap_pair (p : Z * str) : str * Z := (p.2, p.1).

(** The tree built from a frequency list: its shape and weights. *)
Definition good_tree (t : HuffmanTreeNode) : Prop :=
  full t ∧ freq_sums t ∧ freq t = sumZ (snd <$> leaves t).

(** ** Vocabulary of the frequency table *)

(** How often [c] occurs in [text]. *)
Definition occurrences (c : Z) (text : str) : Z :=
  Z.of_nat (length (filter (λ x, x = c) text)).

(** [p] comes before [q]: a higher frequency, or the same frequency and a
    higher code point. *)
Definition freq_desc (p q : Z * str) : Prop :=
  (q.1 < p.1)%Z ∨ (p.1 = q.1 ∧ ∃ c d, p.2 = [c] ∧ q.2 = [d] ∧ (d < c)%Z).

(** An entry whose string is one character. *)
Definition is_char_entry (p : Z * str) : Prop := ∃ c, p.2 = [c].

(** [a] is not above [b]. *)
Definition tuple_le (a b : Z * str) : Prop := tuple_lt b a = false.

(** The leaves from left to right with the path from the root: [false]
    for a step to [left], [true] for a step to [right]. *)
Fixpoint paths (n : HuffmanTreeNode) : list (str * bitarray) :=
  match n with
  | mkNode _ _ (Some l) (Some r) _ =>
      (prod_map id (cons false) <$> paths l) ++ (prod_map id (cons true) <$> paths r)
  | mkNode c _ _ _ _ => [(c, [])]
  end.

(** Entering the paths of a subtree into the table, as [traverse] does. *)
Definition enter (code : bitarray) (codes : gmap str (option bitarray))
    (entry : str * bitarray) : gmap str (option bitarray) :=
  <[entry.1 := Some (code ++ entry.2)]> codes.

(** ** Vocabulary of the serialized tree *)

(** A Unicode scalar value: a code point that is not a surrogate. *)
Definition encodable (c : Z) : Prop :=
  (0 ≤ c < 0xD800 ∨ 0xE000 ≤ c < 0x110000)%Z.

(** The serialized tree as text: tag ["1"] and the character for a leaf,
    tag ["0"] and the two subtrees for an internal node. *)
Fixpoint tree_string (n : HuffmanTreeNode) : str :=
  match n with
  | mkNode _ _ (Some l) (Some r) _ => 48%Z :: tree_string l ++ tree_string r
  | mkNode c _ _ _ _ => 49%Z :: c
  end.

(** The same branching, and the same character at corresponding leaves. *)
Fixpoint same_shape (a b : HuffmanTreeNode) : Prop :=
  match a, b with
  | mkNode ca _ None None _, mkNode cb _ None None _ => ca = cb
  | mkNode _ _ (Some la) (Some ra) _, mkNode _ _ (Some lb) (Some rb) _ =>
      same_shape la lb ∧ same_shape ra rb
  | _, _ => False
  end.

(** Every leaf carries one character. *)
Definition char_leaves (n : HuffmanTreeNode) : Prop :=
  Forall (λ p : str * Z, ∃ c, p.1 = [c]) (leaves n).

(** The characters at the leaves are encodable. *)
Definition encodable_leaves (n : HuffmanTreeNode) : Prop :=
  Forall (λ p : str * Z, Forall encodable p.1) (leaves n).

(** ** Vocabulary of the container *)

(** The two fields of the header of a file and the bytes after it. *)
Definition header_padding (file : bytes) : Z := from_bytes (take 8 file).
Definition header_tree_length (file : bytes) : Z := from_bytes (take 8 (drop 8 file)).
Definition after_header (file : bytes) : bytes := drop 16 file.

(** ** Vocabulary of the encoded text *)

(** The code table that [compress] uses for a text. *)
Definition code_table (text : str) : gmap str (option bitarray) :=
  match _build_huffman_tree (_count_frequencies text) with
  | Ok (Some tree) => (_get_codes tree).2
  | _ => ∅
  end.

(** The code of a character in a table. *)
Definition code_of (codes : gmap str (option bitarray)) (c : Z) : bitarray :=
  match codes !! [c] with
  | Some (Some code) => code
  | _ => []
  end.

(** The concatenation of the codes of the characters of a text. *)
Definition code_bits (text : str) : bitarray :=
  concat (code_of (code_table text) <$> text).

(** ** Further observations on trees *)

(** The label of each internal node is the label of its left child
    followed by the label of its right child. *)
Fixpoint labelled (n : HuffmanTreeNode) : Prop :=
  match n with
  | mkNode c _ (Some l) (Some r) _ => c = char l ++ char r ∧ labelled l ∧ labelled r
  | _ => True
  end.


(** The code of a string in a table. *)
Definition entry_code (codes : gmap str (option bitarray)) (s : str) : bitarray :=
  match codes !! s with
  | Some (Some code) => code
  | _ => []
  end.

(** The node reached from [n] by the bits [q], through internal nodes. *)
Fixpoint descend (n : HuffmanTreeNode) (q : bitarray) {struct q}
    : option HuffmanTreeNode :=
  match q with
  | [] => Some n
  | b :: q' =>
      match n with
      | mkNode _ _ (Some l) (Some r) _ => descend (if b then r else l) q'
      | _ => None
      end
  end.

(** ** Vocabulary of the heap *)

(** The invariant of [heapq] in the order of [__lt__]: no element has a
    smaller frequency than its parent, the element at [(i - 1) / 2]. *)
Definition heap_ordered (heap : list HuffmanTreeNode) : Prop :=
  ∀ i x p, (0 < i)%nat →
    heap !! i = Some x → heap !! ((i - 1) / 2)%nat = Some p →
    (freq p ≤ freq x)%Z.

(** The invariant while a sifting loop has a hole at [pos]: the pairs of
    a child and its parent that do not involve the hole are in order, and
    so are the children of the hole and its parent. *)
Definition hole_ordered (heap : list HuffmanTreeNode) (pos : nat) : Prop :=
  (∀ i x p, (0 < i)%nat → i ≠ pos → ((i - 1) / 2)%nat ≠ pos →
     heap !! i = Some x → heap !! ((i - 1) / 2)%nat = Some p →
     (freq p ≤ freq x)%Z)
  ∧ (∀ i x g, (0 < pos)%nat → (0 < i)%nat → ((i - 1) / 2)%nat = pos →
       heap !! i = Some x → heap !! ((pos - 1) / 2)%nat = Some g →
       (freq g ≤ freq x)%Z).

(** [newitem] may be put at [pos]: it is not heavier than the children
    of [pos]. *)
Definition fits_above (heap : list HuffmanTreeNode) (pos : nat)
    (newitem : HuffmanTreeNode) : Prop :=
  ∀ i x, (0 < i)%nat → ((i - 1) / 2)%nat = pos → heap !! i = Some x →
    (freq newitem ≤ freq x)%Z.

(** In every internal node the left child is not heavier than the right
    one. *)
Fixpoint left_lighter (n : HuffmanTreeNode) : Prop :=
  match n with
  | mkNode _ _ (Some l) (Some r) _ =>
      (freq l ≤ freq r)%Z ∧ left_lighter l ∧ left_lighter r
  | _ => True
  end.

(** * Properties *)

(** One step of a computation in [outcome]. *)
Ltac step := cbn [mbind outcome_bind].

(** ** The heap operations keep the elements *)

Module heapq_facts.
Import heapq.
Section Facts.
Context {A : Type} (lt : A → A → bool).
Implicit Types heap : list A.

Lemma getitem_lookup heap i x : heap !! i = Some x → getitem heap i = Ok x.
Proof. unfold getitem. by intros ->. Qed.

Lemma getitem_lt heap i : (i < length heap)%nat → ∃ x, heap !! i = Some x ∧ getitem heap i = Ok x.
Proof.
  intros [x Hx]%lookup_lt_is_Some_2. exists x. split; [done | by apply getitem_lookup].
Qed.

Lemma setitem_lt heap i x : (i < length heap)%nat → setitem heap i x = Ok (<[i:=x]> heap).
Proof. unfold setitem. intros. by rewrite decide_True. Qed.

(** Moving the hole from [i] to [j]: the element at [j] is copied to [i]. *)
Lemma hole_move heap i j newitem y :
  (i < length heap)%nat → i ≠ j → heap !! j = Some y →
  <[j:=newitem]> (<[i:=y]> heap) ≡ₚ <[i:=newitem]> heap.
Proof.
  intros Hi Hij Hj.
  rewrite <- (list_insert_insert_eq heap i y newitem).
  apply Permutation_insert_swap.
  - by apply list_lookup_insert_eq.
  - by rewrite list_lookup_insert_ne.
Qed.

Lemma _siftdown_loop_spec fuel : ∀ heap newitem startpos pos,
  (pos ≤ fuel)%nat → (pos < length heap)%nat →
  ∃ heap' pos',
    _siftdown_loop lt fuel heap newitem startpos pos = Ok (heap', pos')
    ∧ length heap' = length heap ∧ (pos' < length heap')%nat
    ∧ <[pos':=newitem]> heap' ≡ₚ <[pos:=newitem]> heap.
Proof.
  induction fuel as [|fuel IH]; intros heap newitem startpos pos Hfuel Hpos.
  - exists heap, pos. cbn [_siftdown_loop]. rewrite decide_False by lia. done.
  - cbn [_siftdown_loop]. case_decide as Hlt; [|by exists heap, pos].
    assert (Hpar : ((pos - 1) / 2 < pos)%nat).
    { apply Nat.Div0.div_lt_upper_bound. lia. }
    destruct (getitem_lt heap ((pos - 1) / 2)) as (parent & Hparent & ->); [lia|].
    step. destruct (lt newitem parent); [|by exists heap, pos].
    rewrite setitem_lt by done. step.
    destruct (IH (<[pos:=parent]> heap) newitem startpos ((pos - 1) / 2)%nat)
      as (heap' & pos' & -> & Hlen & Hpos' & Hperm).
    { lia. }
    { rewrite length_insert. lia. }
    exists heap', pos'. rewrite length_insert in Hlen.
    repeat split; [done..|].
    rewrite Hperm. apply hole_move; [done | lia | done].
Qed.

Lemma _siftdown_spec heap startpos pos :
  (pos < length heap)%nat →
  ∃ heap', _siftdown lt heap startpos pos = Ok heap' ∧ heap' ≡ₚ heap.
Proof.
  intros Hpos. unfold _siftdown.
  destruct (getitem_lt heap pos) as (newitem & Hnew & ->); [done|]. step.
  destruct (_siftdown_loop_spec pos heap newitem startpos pos)
    as (heap' & pos' & -> & Hlen & Hpos' & Hperm); [done..|].
  step. rewrite setitem_lt by done. eexists; split; [done|].
  rewrite Hperm. by rewrite list_insert_id.
Qed.

Lemma heappush_spec heap item :
  ∃ heap', heappush lt heap item = Ok heap' ∧ heap' ≡ₚ item :: heap.
Proof.
  unfold heappush.
  destruct (_siftdown_spec (heap ++ [item]) 0 (length (heap ++ [item]) - 1))
    as (heap' & -> & Hperm).
  { rewrite !length_app. cbn [length]. lia. }
  exists heap'. split; [done|]. rewrite Hperm.
  by rewrite Permutation_app_comm.
Qed.

Lemma _siftup_loop_spec fuel : ∀ heap endpos pos childpos,
  endpos = length heap → (pos < childpos)%nat → (pos < endpos)%nat →
  (endpos - childpos ≤ fuel)%nat →
  ∃ heap' pos',
    _siftup_loop lt fuel heap endpos pos childpos = Ok (heap', pos')
    ∧ length heap' = length heap ∧ (pos' < length heap')%nat
    ∧ ∀ newitem, <[pos':=newitem]> heap' ≡ₚ <[pos:=newitem]> heap.
Proof.
  induction fuel as [|fuel IH]; intros heap endpos pos childpos -> Hchild Hpos Hfuel.
  - exists heap, pos. cbn [_siftup_loop]. rewrite decide_False by lia. done.
  - cbn [_siftup_loop]. case_decide as Hlt; [|by exists heap, pos].
    assert (∃ childpos', (childpos ≤ childpos')%nat ∧ (childpos' < length heap)%nat ∧
        (if decide (childpos + 1 < length heap)%nat then
           c ← getitem heap childpos;
           r ← getitem heap (childpos + 1)%nat;
           Ok (if negb (lt c r) then (childpos + 1)%nat else childpos)
         else Ok childpos) = Ok childpos') as (childpos' & Hle & Hlt' & ->).
    { case_decide as Hr; [|by exists childpos].
      destruct (getitem_lt heap childpos) as (c & _ & ->); [done|].
      destruct (getitem_lt heap (childpos + 1)) as (r & _ & ->); [done|].
      step. destruct (negb (lt c r)); eexists; (split; [|split; [|done]]); lia. }
    step.
    destruct (getitem_lt heap childpos') as (child & Hc & ->); [done|]. step.
    rewrite setitem_lt by done. step.
    destruct (IH (<[pos:=child]> heap) (length heap) childpos' (2 * childpos' + 1)%nat)
      as (heap' & pos' & -> & Hlen & Hpos' & Hperm).
    { by rewrite length_insert. }
    { lia. }
    { lia. }
    { lia. }
    exists heap', pos'. rewrite length_insert in Hlen.
    repeat split; [done..|].
    intros newitem. rewrite Hperm. apply hole_move; [done | lia | done].
Qed.

Lemma _siftup_spec heap pos :
  (pos < length heap)%nat →
  ∃ heap', _siftup lt heap pos = Ok heap' ∧ heap' ≡ₚ heap.
Proof.
  intros Hpos. unfold _siftup.
  destruct (getitem_lt heap pos) as (newitem & Hnew & ->); [done|]. step.
  destruct (_siftup_loop_spec (length heap) heap (length heap) pos (2 * pos + 1))
    as (heap' & pos' & -> & Hlen & Hpos' & Hperm); [done | lia..|].
  step. rewrite setitem_lt by done. step.
  destruct (_siftdown_spec (<[pos':=newitem]> heap') pos pos')
    as (heap'' & -> & Hperm'').
  { by rewrite length_insert. }
  exists heap''. split; [done|].
  rewrite Hperm'', Hperm. by rewrite list_insert_id.
Qed.

Lemma heappop_spec heap :
  heap ≠ [] →
  ∃ x heap', heappop lt heap = Ok (x, heap') ∧ heap ≡ₚ x :: heap'.
Proof.
  intros Hne. unfold heappop, list_pop.
  destruct (last heap) as [lastelt|] eqn:Hlast; [|by apply last_None in Hlast].
  apply last_Some in Hlast as [heap0 ->]. rewrite removelast_last. step.
  destruct heap0 as [|returnitem heap0].
  - by exists lastelt, [].
  - rewrite (getitem_lookup _ 0 returnitem) by done. step.
    rewrite setitem_lt by (cbn [length]; lia). step.
    destruct (_siftup_spec (<[0%nat:=lastelt]> (returnitem :: heap0)) 0)
      as (heap' & -> & Hperm).
    { rewrite length_insert. cbn [length]. lia. }
    exists returnitem, heap'. split; [done|].
    rewrite Hperm. cbn.
    apply perm_skip. symmetry. apply Permutation_cons_append.
Qed.
End Facts.
End heapq_facts.

Lemma node_ind (P : HuffmanTreeNode → Prop) :
  (∀ c f cd, P (mkNode c f None None cd)) →
  (∀ c f l cd, P l → P (mkNode c f (Some l) None cd)) →
  (∀ c f r cd, P r → P (mkNode c f None (Some r) cd)) →
  (∀ c f l r cd, P l → P r → P (mkNode c f (Some l) (Some r) cd)) →
  ∀ n, P n.
Proof.
  intros H0 Hl Hr H2. fix IH 1. intros [c f [l|] [r|] cd].
  - apply H2; apply IH.
  - apply Hl; apply IH.
  - apply Hr; apply IH.
  - apply H0.
Qed.

Section Build.
Import heapq_facts.

Lemma _build_init_spec freq_list : ∀ nodes,
  ∃ nodes', _build_init freq_list nodes = Ok nodes'
            ∧ nodes' ≡ₚ (leaf_node <$> freq_list) ++ nodes.
Proof.
  induction freq_list as [|[f c] rest IH]; intros nodes.
  - by exists nodes.
  - cbn [_build_init].
    destruct (heappush_spec node_lt nodes (new_node c f None None)) as (n1 & -> & Hp).
    step. destruct (IH n1) as (n2 & -> & Hp2). exists n2. split; [done|].
    rewrite Hp2, Hp. cbn. by rewrite Permutation_middle.
Qed.

Variable Inv : list HuffmanTreeNode → Prop.
Hypothesis Inv_perm : ∀ l l', l ≡ₚ l' → Inv l → Inv l'.
Hypothesis Inv_merge : ∀ l r rest, Inv (l :: r :: rest) → Inv (merge_nodes l r :: rest).

Lemma _build_merge_spec fuel : ∀ nodes,
  (length nodes ≤ S fuel)%nat → nodes ≠ [] → Inv nodes →
  ∃ tree, _build_merge fuel nodes = Ok [tree] ∧ Inv [tree].
Proof.
  induction fuel as [|fuel IH]; intros nodes Hlen Hne HI.
  - destruct nodes as [|t [|]]; [done| |simpl in Hlen; lia].
    exists t. by cbn.
  - cbn [_build_merge]. case_decide as H1.
    + destruct (heappop_spec node_lt nodes) as (l & n1 & -> & Hp1); [done|]. step.
      assert (Hl1 : length nodes = S (length n1)) by by rewrite Hp1.
      destruct (heappop_spec node_lt n1) as (r & n2 & -> & Hp2).
      { intros ->. simpl in Hl1. lia. }
      step.
      assert (Hl2 : length n1 = S (length n2)) by by rewrite Hp2.
      destruct (heappush_spec node_lt n2 (merge_nodes l r)) as (n3 & Hpush & Hp3).
      unfold merge_nodes in Hpush at 1. rewrite Hpush. step.
      assert (Hl3 : length n3 = S (length n2)) by by rewrite Hp3.
      apply IH.
      * lia.
      * intros ->. done.
      * apply (Inv_perm (merge_nodes l r :: n2)); [done|].
        apply Inv_merge. apply (Inv_perm nodes); [|done].
        by rewrite Hp1, Hp2.
    + destruct nodes as [|t [|]]; [done| |simpl in H1; lia].
      by exists t.
Qed.

Lemma _build_huffman_tree_inv freq_list :
  freq_list ≠ [] → Inv (leaf_node <$> freq_list) →
  ∃ tree, _build_huffman_tree freq_list = Ok (Some tree) ∧ Inv [tree].
Proof.
  intros Hne HI. unfold _build_huffman_tree.
  rewrite decide_False by by destruct freq_list.
  destruct (_build_init_spec freq_list []) as (n1 & -> & Hp). step.
  rewrite app_nil_r in Hp.
  destruct (_build_merge_spec (length n1) n1) as (tree & -> & HI').
  - lia.
  - intros ->. apply Permutation_nil_l in Hp. by destruct freq_list.
  - by apply (Inv_perm (leaf_node <$> freq_list)).
  - step. exists tree. done.
Qed.
End Build.

Lemma _build_huffman_tree_nil : _build_huffman_tree [] = Ok None.
Proof. reflexivity. Qed.


Lemma good_leaf p : good_tree (leaf_node p).
Proof. destruct p as [f c]. repeat split. cbn. lia. Qed.

Lemma sumZ_app l1 l2 : sumZ (l1 ++ l2) = (sumZ l1 + sumZ l2)%Z.
Proof. induction l1 as [|x l1 IH]; cbn; lia. Qed.

Lemma good_merge l r : good_tree l → good_tree r → good_tree (merge_nodes l r).
Proof.
  intros (Fl & Sl & El) (Fr & Sr & Er). repeat split; try done.
  cbn. rewrite fmap_app, sumZ_app. lia.
Qed.

Lemma leaves_leaf p : leaves (leaf_node p) = [swap_pair p].
Proof. by destruct p. Qed.

Lemma leaves_initial freq_list :
  concat (leaves <$> (leaf_node <$> freq_list)) = swap_pair <$> freq_list.
Proof.
  induction freq_list as [|p rest IH]; [done|].
  rewrite !fmap_cons. cbn [concat]. by rewrite leaves_leaf, IH.
Qed.

Lemma _build_huffman_tree_spec freq_list :
  freq_list ≠ [] →
  ∃ tree, _build_huffman_tree freq_list = Ok (Some tree)
          ∧ good_tree tree ∧ leaves tree ≡ₚ swap_pair <$> freq_list.
Proof.
  intros Hne.
  destruct (_build_huffman_tree_inv
              (λ forest, Forall good_tree forest
                         ∧ concat (leaves <$> forest) ≡ₚ swap_pair <$> freq_list))
    with (freq_list := freq_list) as (tree & Hb & HF & HL).
  - intros l l' Hp [HF HL]. split; [by rewrite <- Hp|]. by rewrite <- Hp.
  - intros l r rest [HF HL].
    apply Forall_cons in HF as [Gl HF]. apply Forall_cons in HF as [Gr HF].
    split.
    + apply Forall_cons. split; [by apply good_merge | done].
    + rewrite <- HL. cbn. by rewrite (assoc_L (++)).
  - done.
  - split; [apply Forall_fmap, Forall_true, good_leaf|].
    by rewrite leaves_initial.
  - exists tree. split; [done|]. apply Forall_cons in HF as [G _]. split; [done|].
    rewrite <- HL. cbn. by rewrite app_nil_r.
Qed.

(** ** The frequency counter *)

Lemma occurrences_snoc c text x :
  occurrences c (text ++ [x]) =
  (occurrences c text + if decide (x = c) then 1 else 0)%Z.
Proof.
  unfold occurrences. rewrite filter_app, length_app.
  destruct (decide (x = c)) as [->|Hne].
  - rewrite filter_cons_True by done. cbn. lia.
  - rewrite filter_cons_False by done. cbn. lia.
Qed.

Lemma occurrences_notin c text : c ∉ text → occurrences c text = 0%Z.
Proof.
  intros Hc. unfold occurrences.
  induction text as [|x text IH]; [done|].
  apply not_elem_of_cons in Hc as [Hx Hc].
  rewrite filter_cons_False by done. by apply IH.
Qed.

Lemma occurrences_pos c text : c ∈ text → (0 < occurrences c text)%Z.
Proof.
  intros Hc. unfold occurrences.
  induction text as [|x text IH]; [by apply elem_of_nil in Hc|].
  destruct (decide (x = c)) as [->|Hne].
  - rewrite filter_cons_True by done. cbn. lia.
  - rewrite filter_cons_False by done. apply IH.
    apply elem_of_cons in Hc as [->|]; done.
Qed.

Lemma freq_dict_lookup text c :
  foldl count_char ∅ text !! [c] =
  if decide (c ∈ text) then Some (occurrences c text) else None.
Proof.
  induction text as [|x text IH] using rev_ind.
  - cbn. rewrite lookup_empty. rewrite decide_False; [done|]. apply not_elem_of_nil.
  - rewrite foldl_snoc. unfold count_char at 1. rewrite occurrences_snoc.
    destruct (decide (x = c)) as [->|Hne].
    + rewrite lookup_insert_eq, IH.
      rewrite (decide_True (P := c ∈ text ++ [c])) by (apply elem_of_app; right; apply list_elem_of_singleton; done).
      case_decide as Hc; cbn; [done|].
      by rewrite occurrences_notin.
    + rewrite lookup_insert_ne by congruence. rewrite IH.
      assert (c ∈ text ++ [x] ↔ c ∈ text) as Hiff.
      { rewrite elem_of_app, list_elem_of_singleton.
        split; [intros [?|?]; [done | congruence] | auto]. }
      destruct (decide (c ∈ text)) as [Hc|Hc].
      * rewrite decide_True; [f_equal; lia | by apply Hiff].
      * rewrite decide_False; [done | by rewrite Hiff].
Qed.

Lemma freq_dict_keys text k f :
  foldl count_char ∅ text !! k = Some f → ∃ c, k = [c].
Proof.
  revert f. induction text as [|x text IH] using rev_ind; intros f.
  - cbn. by rewrite lookup_empty.
  - rewrite foldl_snoc. unfold count_char at 1.
    destruct (decide ([x] = k)) as [<-|Hne]; [by eexists|].
    rewrite lookup_insert_ne by done. apply IH.
Qed.

(** *** Sorting *)

Lemma tuple_lt_char f1 c1 f2 c2 :
  tuple_lt (f1, [c1]) (f2, [c2]) = true ↔ (f1 < f2 ∨ (f1 = f2 ∧ c1 < c2))%Z.
Proof.
  unfold tuple_lt. cbn.
  destruct (Z.ltb_spec f1 f2), (Z.ltb_spec f2 f1), (Z.ltb_spec c1 c2), (Z.ltb_spec c2 c1);
    split; intros; try done; try lia.
Qed.

Lemma tuple_lt_char_false f1 c1 f2 c2 :
  tuple_lt (f1, [c1]) (f2, [c2]) = false ↔ (f2 < f1 ∨ (f1 = f2 ∧ c2 ≤ c1))%Z.
Proof.
  rewrite <- not_true_iff_false, tuple_lt_char. lia.
Qed.

Lemma sort_insert_perm x l : sort_insert x l ≡ₚ x :: l.
Proof.
  induction l as [|y l IH]; [done|]. cbn.
  destruct (tuple_lt y x); [|done]. rewrite IH. apply perm_swap.
Qed.

Lemma stable_sort_perm l : stable_sort l ≡ₚ l.
Proof.
  induction l as [|x l IH]; [done|]. cbn.
  rewrite sort_insert_perm. by rewrite IH.
Qed.

Lemma sort_reverse_perm l : sort_reverse l ≡ₚ l.
Proof.
  unfold sort_reverse. rewrite <- Permutation_rev, stable_sort_perm.
  by rewrite <- Permutation_rev.
Qed.


Lemma tuple_le_trans a b c :
  is_char_entry a → is_char_entry b → is_char_entry c →
  tuple_le a b → tuple_le b c → tuple_le a c.
Proof.
  destruct a as [fa sa], b as [fb sb], c as [fc sc].
  intros [ca Ha] [cb Hb] [cc Hc]. cbn in *. subst. unfold tuple_le.
  rewrite !tuple_lt_char_false. lia.
Qed.

Lemma tuple_lt_le a b :
  is_char_entry a → is_char_entry b → tuple_lt a b = true → tuple_le a b.
Proof.
  destruct a as [fa sa], b as [fb sb].
  intros [ca Ha] [cb Hb]. cbn in *. subst. unfold tuple_le.
  rewrite tuple_lt_char, tuple_lt_char_false. lia.
Qed.

Lemma sort_insert_sorted x l :
  is_char_entry x → Forall is_char_entry l →
  StronglySorted tuple_le l → StronglySorted tuple_le (sort_insert x l).
Proof.
  intros Hx Hl Hs. induction Hs as [|y l Hs IH Hy]; cbn.
  - repeat constructor.
  - apply Forall_cons in Hl as [Hcy Hl].
    destruct (tuple_lt y x) eqn:Hyx.
    + constructor; [by apply IH|].
      rewrite sort_insert_perm. constructor; [by apply tuple_lt_le | done].
    + constructor; [by constructor|].
      constructor; [done|].
      rewrite Forall_forall in Hy, Hl |- *. intros z Hz.
      apply (tuple_le_trans x y z); auto. 
  Qed.

Lemma stable_sort_sorted l :
  Forall is_char_entry l → StronglySorted tuple_le (stable_sort l).
Proof.
  induction 1 as [|x l Hx Hl IH]; cbn; [constructor|].
  apply sort_insert_sorted; [done | by rewrite stable_sort_perm | done].
Qed.

Lemma StronglySorted_rev {A} (R : relation A) l :
  StronglySorted R l → StronglySorted (flip R) (rev l).
Proof.
  induction 1 as [|x l Hs IH Hx]; cbn; [constructor|].
  apply StronglySorted_app_2; [|done|repeat constructor].
  intros x1 x2 H1 ->%list_elem_of_singleton.
  rewrite Forall_forall in Hx. apply Hx. by rewrite <- Permutation_rev in H1.
Qed.

Lemma sort_reverse_sorted l :
  Forall is_char_entry l → NoDup l → StronglySorted freq_desc (sort_reverse l).
Proof.
  intros Hl Hnd.
  assert (Hs : StronglySorted (flip tuple_le) (sort_reverse l)).
  { apply StronglySorted_rev, stable_sort_sorted. by rewrite <- Permutation_rev. }
  assert (Hnd' : NoDup (sort_reverse l)) by by rewrite sort_reverse_perm.
  assert (Hl' : Forall is_char_entry (sort_reverse l)) by by rewrite sort_reverse_perm.
  induction Hs as [|p k Hs IH Hp]; [constructor|].
  apply NoDup_cons in Hnd' as [Hpk Hnd']. apply Forall_cons in Hl' as [Hcp Hl'].
  constructor; [by apply IH|].
  rewrite Forall_forall in Hp, Hl' |- *. intros q Hq.
  specialize (Hp q Hq). specialize (Hl' q Hq).
  assert (p ≠ q) as Hne by (intros ->; done).
  destruct p as [fp sp], q as [fq sq], Hcp as [cp Hcp], Hl' as [cq Hcq].
  cbn in *. subst. unfold flip, tuple_le in Hp.
  apply tuple_lt_char_false in Hp. unfold freq_desc. cbn.
  destruct (decide (fp = fq)) as [->|]; [|lia].
  right. split; [done|]. exists cp, cq. repeat split.
  destruct (decide (cp = cq)) as [->|]; [done | lia].
Qed.

(** The sorted list does not depend on the order in which the dictionary
    yields its items: the entries are distinct, and a list of distinct
    entries has one arrangement in descending order. *)
Lemma sort_reverse_order l l' :
  l ≡ₚ l' → NoDup l → Forall is_char_entry l → sort_reverse l = sort_reverse l'.
Proof.
  intros Hp Hnd Hl.
  apply (StronglySorted_unique_strong freq_desc).
  - intros [f1 s1] [f2 s2] _ _ [H1|(H1 & c1 & d1 & Hs1 & Hd1 & Hlt1)]
      [H2|(H2 & c2 & d2 & Hs2 & Hd2 & Hlt2)]; cbn in *; try lia.
    subst. injection Hs2 as ->. injection Hd2 as ->. lia.
  - by apply sort_reverse_sorted.
  - apply sort_reverse_sorted; by rewrite <- Hp.
  - by rewrite !sort_reverse_perm.
Qed.

(** *** The table *)

Lemma _count_frequencies_elem text f s :
  (f, s) ∈ _count_frequencies text ↔
  ∃ c, s = [c] ∧ c ∈ text ∧ f = occurrences c text.
Proof.
  unfold _count_frequencies. rewrite sort_reverse_perm.
  rewrite list_elem_of_fmap. split.
  - intros ([k f'] & [= -> ->] & Hin).
    apply elem_of_map_to_list in Hin.
    destruct (freq_dict_keys _ _ _ Hin) as [c ->].
    rewrite freq_dict_lookup in Hin. case_decide; [|done].
    exists c. naive_solver.
  - intros (c & -> & Hc & ->). exists ([c], occurrences c text). split; [done|].
    apply elem_of_map_to_list. rewrite freq_dict_lookup. by rewrite decide_True.
Qed.

Lemma _count_frequencies_NoDup text : NoDup (snd <$> _count_frequencies text).
Proof.
  unfold _count_frequencies. rewrite sort_reverse_perm.
  rewrite <- list_fmap_compose.
  apply (NoDup_fst_map_to_list (foldl count_char ∅ text)).
Qed.

Lemma _count_frequencies_entries text :
  Forall is_char_entry (_count_frequencies text).
Proof.
  apply Forall_forall. intros [f s] H.
  apply _count_frequencies_elem in H as (c & -> & _). by exists c.
Qed.

Lemma _count_frequencies_nil : _count_frequencies [] = [].
Proof. reflexivity. Qed.

(** C9. The frequency counter returns one pair [(frequency, character)]
    for each distinct character of the text, and no other pair; the list is
    in descending order of frequency, equal frequencies in descending order
    of code point; the empty text gives the empty list. *)
Theorem count_frequencies_table text :
  (∀ f s, (f, s) ∈ _count_frequencies text ↔
          ∃ c, s = [c] ∧ c ∈ text ∧ f = occurrences c text)
  ∧ NoDup (snd <$> _count_frequencies text)
  ∧ StronglySorted freq_desc (_count_frequencies text)
  ∧ _count_frequencies [] = [].
Proof.
  split; [apply _count_frequencies_elem|].
  split; [apply _count_frequencies_NoDup|].
  split; [|reflexivity].
  pose proof (_count_frequencies_entries text) as He.
  pose proof (_count_frequencies_NoDup text) as Hnd.
  unfold _count_frequencies in *. rewrite sort_reverse_perm in He, Hnd.
  apply sort_reverse_sorted; [done|].
  by apply NoDup_fmap_1 in Hnd.
Qed.

(** ** Weights *)

Lemma sumZ_perm l1 l2 : l1 ≡ₚ l2 → sumZ l1 = sumZ l2.
Proof.
  induction 1 as [|x l1 l2 _ IH|x y l|l1 l2 l3 _ IH1 _ IH2]; cbn in *; lia.
Qed.

Lemma freq_dict_total text :
  sumZ (snd <$> map_to_list (foldl count_char ∅ text)) = Z.of_nat (length text).
Proof.
  induction text as [|x text IH] using rev_ind.
  - cbn. by rewrite map_to_list_empty.
  - rewrite foldl_snoc, length_app. cbn [length].
    set (d := foldl count_char ∅ text) in *. unfold count_char.
    destruct (d !! [x]) as [v|] eqn:Hx; cbn [default from_option]; unfold id.
    + rewrite <- insert_delete_eq.
      pose proof (sumZ_perm _ _ (fmap_Permutation snd _ _
        (map_to_list_insert (delete [x] d) [x] (v + 1)%Z (lookup_delete_eq d [x])))) as H1.
      pose proof (sumZ_perm _ _ (fmap_Permutation snd _ _
        (map_to_list_delete d [x] v Hx))) as H2.
      rewrite fmap_cons in H1, H2. cbn [sumZ snd] in H1, H2. lia.
    + pose proof (sumZ_perm _ _ (fmap_Permutation snd _ _
        (map_to_list_insert d [x] (0 + 1)%Z Hx))) as H1.
      rewrite fmap_cons in H1. cbn [sumZ snd] in H1. lia.
Qed.

Lemma _count_frequencies_total text :
  sumZ (fst <$> _count_frequencies text) = Z.of_nat (length text).
Proof.
  unfold _count_frequencies.
  rewrite (sumZ_perm _ _ (fmap_Permutation fst _ _ (sort_reverse_perm _))).
  rewrite <- list_fmap_compose. apply freq_dict_total.
Qed.

Lemma _count_frequencies_nonempty text : text ≠ [] → _count_frequencies text ≠ [].
Proof.
  destruct text as [|c text]; [done|]. intros _ Hnil.
  assert ((occurrences c (c :: text), [c]) ∈ _count_frequencies (c :: text)) as Hin.
  { apply _count_frequencies_elem. exists c. repeat split. apply elem_of_cons; by left. }
  rewrite Hnil in Hin. by apply elem_of_nil in Hin.
Qed.

(** C8. For every text the tree builder returns, and it returns no tree
    only for the empty text.  The frequency of the root of the tree is the
    sum of the frequencies of the leaves and the number of characters of the
    text, and the frequency of each internal node is the sum of the
    frequencies of its two children. *)
Theorem weight_conservation text :
  match _build_huffman_tree (_count_frequencies text) with
  | Ok (Some tree) =>
      freq tree = sumZ (snd <$> leaves tree)
      ∧ freq tree = Z.of_nat (length text)
      ∧ freq_sums tree
  | Ok None => text = []
  | Raise _ => False
  end.
Proof.
  destruct text as [|c0 text0]; [done|].
  destruct (_build_huffman_tree_spec (_count_frequencies (c0 :: text0)))
    as (tree & -> & (Hfull & Hsums & Hfreq) & Hleaves).
  { by apply _count_frequencies_nonempty. }
  repeat split; try done.
  rewrite Hfreq, <- _count_frequencies_total.
  apply sumZ_perm. rewrite Hleaves, <- list_fmap_compose. done.
Qed.

(** ** Codes *)

Lemma code_tree_paths n : ∀ code, paths (code_tree n code) = paths n.
Proof.
  induction n as [c f cd|c f l cd IHl|c f r cd IHr|c f l r cd IHl IHr] using node_ind;
    intros code; cbn; [done..|].
  by rewrite IHl, IHr.
Qed.

Lemma enter_step code b ps : ∀ codes,
  foldl (enter code) codes (prod_map id (cons b) <$> ps)
  = foldl (enter (code ++ [b])) codes ps.
Proof.
  induction ps as [|[c p] ps IH]; intros codes; [done|].
  rewrite fmap_cons. cbn [foldl]. rewrite IH. f_equal.
  unfold enter. cbn. by rewrite <- (assoc_L (++)).
Qed.

Lemma traverse_paths n : ∀ code codes,
  traverse n code codes = foldl (enter code) codes (paths n).
Proof.
  induction n as [c f cd|c f l cd IHl|c f r cd IHr|c f l r cd IHl IHr] using node_ind;
    intros code codes; [cbn; unfold enter; cbn; by rewrite app_nil_r..|].
  cbn [traverse paths]. by rewrite foldl_app, IHr, IHl, !enter_step.
Qed.

Lemma enter_lookup code ps : ∀ codes c cd,
  foldl (enter code) codes ps !! c = Some cd →
  codes !! c = Some cd ∨ ∃ p, (c, p) ∈ ps ∧ cd = Some (code ++ p).
Proof.
  induction ps as [|[c' p'] ps IH]; intros codes c cd; cbn; [by left|].
  intros [H|(p & Hin & ->)]%IH.
  - unfold enter in H. cbn in H. destruct (decide (c' = c)) as [->|Hne].
    + rewrite lookup_insert_eq in H. injection H as <-.
      right. exists p'. split; [apply elem_of_cons; by left | done].
    + rewrite lookup_insert_ne in H by done. by left.
  - right. exists p. split; [apply elem_of_cons; by right | done].
Qed.

Lemma enter_keep code ps : ∀ codes c,
  c ∉ fst <$> ps → foldl (enter code) codes ps !! c = codes !! c.
Proof.
  induction ps as [|[c' p'] ps IH]; intros codes c Hc; [done|].
  rewrite fmap_cons in Hc. apply not_elem_of_cons in Hc as [Hne Hc].
  cbn [foldl]. rewrite IH by done. unfold enter. cbn in *.
  by rewrite lookup_insert_ne.
Qed.

Lemma enter_lookup_NoDup code ps : ∀ codes c p,
  NoDup (fst <$> ps) → (c, p) ∈ ps →
  foldl (enter code) codes ps !! c = Some (Some (code ++ p)).
Proof.
  induction ps as [|[c' p'] ps IH]; intros codes c p Hnd Hin.
  - by apply elem_of_nil in Hin.
  - rewrite fmap_cons in Hnd. apply NoDup_cons in Hnd as [Hc' Hnd].
    apply elem_of_cons in Hin as [Heq|Hin]; [injection Heq as -> ->|].
    + cbn [foldl]. rewrite enter_keep by done. unfold enter. cbn.
      by rewrite lookup_insert_eq.
    + by apply IH.
Qed.

Lemma paths_prefix n : ∀ c1 p1 c2 p2,
  (c1, p1) ∈ paths n → (c2, p2) ∈ paths n → p1 `prefix_of` p2 →
  c1 = c2 ∧ p1 = p2.
Proof.
  assert (∀ (b : bool) c p (ps : list (str * bitarray)),
            (c, p) ∈ prod_map id (cons b) <$> ps → ∃ q, p = b :: q ∧ (c, q) ∈ ps) as Hinv.
  { intros b c p ps ([c' q] & [= -> ->] & Hin)%list_elem_of_fmap. by exists q. }
  assert (∀ c f l r cd c1 p1 c2 p2,
            (c1, p1) ∈ paths (mkNode c f l r cd) → (c2, p2) ∈ paths (mkNode c f l r cd) →
            is_internal (mkNode c f l r cd) = false → c1 = c2 ∧ p1 = p2) as Hleaf.
  { intros c f [l|] [r|] cd c1 p1 c2 p2; cbn; try done;
      intros [= -> ->]%list_elem_of_singleton [= -> ->]%list_elem_of_singleton; done. }
  induction n as [c f cd|c f l cd IHl|c f r cd IHr|c f l r cd IHl IHr] using node_ind;
    intros c1 p1 c2 p2 H1 H2 Hpre; [by eapply Hleaf..|].
  cbn in H1, H2. apply elem_of_app in H1, H2.
  destruct H1 as [(q1 & -> & H1)%Hinv|(q1 & -> & H1)%Hinv],
           H2 as [(q2 & -> & H2)%Hinv|(q2 & -> & H2)%Hinv].
  - apply prefix_cons_inv_2 in Hpre. destruct (IHl c1 q1 c2 q2) as [-> ->]; done.
  - by apply prefix_cons_inv_1 in Hpre.
  - by apply prefix_cons_inv_1 in Hpre.
  - apply prefix_cons_inv_2 in Hpre. destruct (IHr c1 q1 c2 q2) as [-> ->]; done.
Qed.

Lemma _get_codes_lookup tree c cd :
  (_get_codes tree).2 !! c = Some cd → ∃ p, (c, p) ∈ paths tree ∧ cd = Some p.
Proof.
  unfold _get_codes. cbn. rewrite traverse_paths, code_tree_paths.
  intros [H|H]%enter_lookup; [by rewrite lookup_empty in H | done].
Qed.

(** C7. In the code table of a tree built by [_build_huffman_tree], the
    code of a character is not a prefix of the code of another character. *)
Theorem codes_prefix_free freq_list tree c1 c2 code1 code2 :
  _build_huffman_tree freq_list = Ok (Some tree) →
  (_get_codes tree).2 !! c1 = Some (Some code1) →
  (_get_codes tree).2 !! c2 = Some (Some code2) →
  c1 ≠ c2 →
  ¬ code1 `prefix_of` code2.
Proof.
  intros _ H1 H2 Hne Hpre.
  apply _get_codes_lookup in H1 as (p1 & H1 & [= ->]).
  apply _get_codes_lookup in H2 as (p2 & H2 & [= ->]).
  by destruct (paths_prefix tree c1 p1 c2 p2) as [? _].
Qed.

Lemma codes_prefix_free_witness : ¬ [false] `prefix_of` [true; false].
Proof.
  apply (codes_prefix_free [(2, [97]); (1, [98]); (1, [99])]%Z
    (mkNode [97; 98; 99] 4 (Some (mkNode [97] 2 None None []))
       (Some (mkNode [98; 99] 2 (Some (mkNode [98] 1 None None []))
                (Some (mkNode [99] 1 None None [])) [])) [])%Z
    [97]%Z [98]%Z).
  - vm_compute. reflexivity.
  - vm_compute. reflexivity.
  - vm_compute. reflexivity.
  - discriminate.
Defined.

(** ** Bytes and UTF-8 *)

Lemma Z_of_byte_range b : (0 ≤ Z_of_byte b < 256)%Z.
Proof. unfold Z_of_byte. pose proof (Byte.to_N_bounded b). lia. Qed.

Lemma Z_of_byte_of_Z z : (0 ≤ z < 256)%Z → Z_of_byte (byte_of_Z z) = z.
Proof.
  intros Hz. unfold Z_of_byte, byte_of_Z.
  destruct (Byte.of_N (Z.to_N z)) as [b|] eqn:Hb.
  - apply Byte.to_of_N in Hb. cbn. lia.
  - apply Byte.of_N_None_iff in Hb. lia.
Qed.

Lemma byte_of_Z_of_byte b : byte_of_Z (Z_of_byte b) = b.
Proof.
  unfold Z_of_byte, byte_of_Z. rewrite N2Z.id. by rewrite Byte.of_to_N.
Qed.

Lemma is_cont_of_Z z : (0 ≤ z < 64)%Z → is_cont (byte_of_Z (0x80 + z)) = true.
Proof.
  intros Hz. unfold is_cont. rewrite Z_of_byte_of_Z by lia.
  apply andb_true_intro. split; [apply Z.leb_le | apply Z.ltb_lt]; lia.
Qed.

Lemma cont_bits_of_Z z : (0 ≤ z < 64)%Z → cont_bits (byte_of_Z (0x80 + z)) = z.
Proof. intros Hz. unfold cont_bits. rewrite Z_of_byte_of_Z by lia. lia. Qed.

Lemma utf8_decode_char c b rest :
  utf8_encode_char c = Ok b →
  utf8_decode (b ++ rest) = (s ← utf8_decode rest; Ok (c :: s)).
Proof.
  unfold utf8_encode_char.
  repeat case_decide; intros [= <-]; cbn [app utf8_decode].
  - rewrite Z_of_byte_of_Z by lia.
    replace (c <? 128)%Z with true by (symmetry; apply Z.ltb_lt; lia). done.
  - assert (2 ≤ c / 64 < 32)%Z by (Z.div_mod_to_equations; lia).
    assert (0 ≤ c mod 64 < 64)%Z by (Z.div_mod_to_equations; lia).
    rewrite Z_of_byte_of_Z by lia.
    rewrite is_cont_of_Z, cont_bits_of_Z by lia.
    replace (192 + c / 64 <? 128)%Z with false by (symmetry; apply Z.ltb_ge; lia).
    replace (192 + c / 64 <? 192)%Z with false by (symmetry; apply Z.ltb_ge; lia).
    replace (192 + c / 64 <? 224)%Z with true by (symmetry; apply Z.ltb_lt; lia).
    replace ((192 + c / 64 - 192) * 64 + c mod 64)%Z with c by (Z.div_mod_to_equations; lia).
    replace (128 <=? c)%Z with true by (symmetry; apply Z.leb_le; lia). done.
  - assert (0 ≤ c / 4096 < 16)%Z by (Z.div_mod_to_equations; lia).
    assert (0 ≤ c / 64 mod 64 < 64)%Z by (Z.div_mod_to_equations; lia).
    assert (0 ≤ c mod 64 < 64)%Z by (Z.div_mod_to_equations; lia).
    rewrite Z_of_byte_of_Z by lia.
    rewrite !is_cont_of_Z, !cont_bits_of_Z by lia.
    replace (224 + c / 4096 <? 128)%Z with false by (symmetry; apply Z.ltb_ge; lia).
    replace (224 + c / 4096 <? 192)%Z with false by (symmetry; apply Z.ltb_ge; lia).
    replace (224 + c / 4096 <? 224)%Z with false by (symmetry; apply Z.ltb_ge; lia).
    replace (224 + c / 4096 <? 240)%Z with true by (symmetry; apply Z.ltb_lt; lia).
    replace ((224 + c / 4096 - 224) * 4096 + c / 64 mod 64 * 64 + c mod 64)%Z with c
      by (Z.div_mod_to_equations; lia).
    replace (2048 <=? c)%Z with true by (symmetry; apply Z.leb_le; lia).
    replace ((55296 <=? c)%Z && (c <? 57344)%Z) with false; [done|].
    symmetry. apply andb_false_iff.
    destruct (Z.leb_spec 55296 c); [right; apply Z.ltb_ge; lia | by left].
  - assert (0 ≤ c / 262144 < 5)%Z by (Z.div_mod_to_equations; lia).
    assert (0 ≤ c / 4096 mod 64 < 64)%Z by (Z.div_mod_to_equations; lia).
    assert (0 ≤ c / 64 mod 64 < 64)%Z by (Z.div_mod_to_equations; lia).
    assert (0 ≤ c mod 64 < 64)%Z by (Z.div_mod_to_equations; lia).
    rewrite Z_of_byte_of_Z by lia.
    rewrite !is_cont_of_Z, !cont_bits_of_Z by lia.
    replace (240 + c / 262144 <? 128)%Z with false by (symmetry; apply Z.ltb_ge; lia).
    replace (240 + c / 262144 <? 192)%Z with false by (symmetry; apply Z.ltb_ge; lia).
    replace (240 + c / 262144 <? 224)%Z with false by (symmetry; apply Z.ltb_ge; lia).
    replace (240 + c / 262144 <? 240)%Z with false by (symmetry; apply Z.ltb_ge; lia).
    replace ((240 + c / 262144 - 240) * 262144 + c / 4096 mod 64 * 4096
             + c / 64 mod 64 * 64 + c mod 64)%Z with c by (Z.div_mod_to_equations; lia).
    replace (65536 <=? c)%Z with true by (symmetry; apply Z.leb_le; lia).
    replace (c <? 1114112)%Z with true by (symmetry; apply Z.ltb_lt; lia). done.
Qed.

Lemma utf8_encode_char_ok c : encodable c → ∃ b, utf8_encode_char c = Ok b ∧ (1 ≤ length b ≤ 4)%nat.
Proof.
  intros Hc. unfold encodable in Hc. unfold utf8_encode_char.
  repeat case_decide; try lia; eexists; (split; [done|]); cbn; lia.
Qed.

Lemma utf8_round_trip s :
  Forall encodable s → ∃ bs, utf8_encode s = Ok bs ∧ utf8_decode bs = Ok s.
Proof.
  induction 1 as [|c s Hc _ (bs & He & Hd)]; [by exists []|].
  destruct (utf8_encode_char_ok c Hc) as (b & Hb & _).
  exists (b ++ bs). cbn [utf8_encode]. rewrite Hb, He. split; [done|].
  rewrite (utf8_decode_char c b bs Hb), Hd. done.
Qed.

Lemma utf8_decode_encode s : ∀ bs, utf8_encode s = Ok bs → utf8_decode bs = Ok s.
Proof.
  induction s as [|c s IH]; intros bs; cbn [utf8_encode].
  - by intros [= <-].
  - destruct (utf8_encode_char c) as [b|e] eqn:Hb; [|done]. step.
    destruct (utf8_encode s) as [bs'|e] eqn:Hs; [|done]. step.
    intros [= <-]. by rewrite (utf8_decode_char c b bs' Hb), (IH bs' eq_refl).
Qed.

Lemma utf8_encode_app s1 s2 :
  utf8_encode (s1 ++ s2) = (a ← utf8_encode s1; b ← utf8_encode s2; Ok (a ++ b)).
Proof.
  induction s1 as [|c s1 IH]; cbn [app utf8_encode].
  - step. by destruct (utf8_encode s2).
  - destruct (utf8_encode_char c) as [b|e]; [|done]. step. rewrite IH.
    destruct (utf8_encode s1) as [a|e]; [|done]. step.
    destruct (utf8_encode s2) as [a2|e]; [|done]. step. by rewrite (assoc_L (++)).
Qed.

(** ** The serialized tree *)

Lemma char_leaves_inv c f l r cd :
  char_leaves (mkNode c f (Some l) (Some r) cd) → char_leaves l ∧ char_leaves r.
Proof. unfold char_leaves. cbn. apply Forall_app. Qed.

Lemma encodable_leaves_inv c f l r cd :
  encodable_leaves (mkNode c f (Some l) (Some r) cd) →
  encodable_leaves l ∧ encodable_leaves r.
Proof. unfold encodable_leaves. cbn. apply Forall_app. Qed.

Lemma tree_string_chars t :
  full t → encodable_leaves t → Forall encodable (tree_string t).
Proof.
  induction t as [c f cd|c f l cd IHl|c f r cd IHr|c f l r cd IHl IHr] using node_ind;
    cbn; try done.
  - intros _ Hc. apply Forall_cons in Hc as [Hc _].
    constructor; [unfold encodable; lia | done].
  - intros [Hl Hr] [Hcl Hcr]%encodable_leaves_inv.
    constructor; [unfold encodable; lia|]. apply Forall_app. auto.
Qed.

Lemma encode_tree_string t : full t → encode_tree t = utf8_encode (tree_string t).
Proof.
  induction t as [c f cd|c f l cd IHl|c f r cd IHr|c f l r cd IHl IHr] using node_ind;
    cbn [full]; try done.
  intros [Hl Hr]. cbn [encode_tree tree_string utf8_encode].
  rewrite IHl, IHr, utf8_encode_app by done.
  change (utf8_encode_char 48) with (Ok [tag_internal]). step.
  destruct (utf8_encode (tree_string l)) as [a|e]; [|done].
  destruct (utf8_encode (tree_string r)) as [b|e]; done.
Qed.

Lemma decode_tree_string t :
  full t → char_leaves t →
  ∀ fuel rest, (length (tree_string t) ≤ fuel)%nat →
  ∃ t', decode_tree fuel (tree_string t ++ rest) = Ok (Some t', rest) ∧ same_shape t t'.
Proof.
  induction t as [c f cd|c f l cd IHl|c f r cd IHr|c f l r cd IHl IHr] using node_ind;
    cbn [full]; try done.
  - intros _ Hc fuel rest Hfuel. apply Forall_cons in Hc as [(ch & Hch) _].
    cbn in Hch. subst c. destruct fuel as [|fuel]; [cbn in Hfuel; lia|].
    cbn. by eexists.
  - intros [Hl Hr] [Hcl Hcr]%char_leaves_inv fuel rest Hfuel.
    cbn [tree_string length] in Hfuel. rewrite length_app in Hfuel.
    destruct fuel as [|fuel]; [lia|].
    cbn [tree_string app decode_tree]. rewrite decide_False by done.
    rewrite <- (assoc_L (++)).
    destruct (IHl Hl Hcl fuel (tree_string r ++ rest)) as (l' & -> & Sl); [lia|]. step.
    destruct (IHr Hr Hcr fuel rest) as (r' & -> & Sr); [lia|]. step.
    eexists. split; [done|]. by cbn.
Qed.

(** The depth of the calls of [decode_tree] is bounded by the length of
    its argument: with more fuel than that it never runs out. *)
Lemma decode_tree_fuel fuel : ∀ tree_str,
  (length tree_str < fuel)%nat →
  decode_tree fuel tree_str = Raise IndexError
  ∨ ∃ t rest, decode_tree fuel tree_str = Ok (t, rest)
              ∧ (length rest ≤ length tree_str)%nat
              ∧ (tree_str ≠ [] → is_Some t ∧ (length rest < length tree_str)%nat).
Proof.
  induction fuel as [|fuel IH]; intros tree_str Hfuel; [lia|].
  destruct tree_str as [|c0 rest]; cbn [decode_tree].
  - right. by exists None, [].
  - case_decide as Htag.
    + destruct rest as [|ch rest']; [by left|]. right.
      eexists _, rest'. cbn [length].
      split; [reflexivity|]. split; [lia|]. intros _. split; [by eexists | lia].
    + cbn [length] in Hfuel.
      destruct (IH rest) as [->|(l & s1 & -> & Hs1 & _)]; [lia | by left|]. step.
      destruct (IH s1) as [->|(r & s2 & -> & Hs2 & _)]; [lia | by left|]. step.
      right. eexists _, s2. cbn [length].
      split; [reflexivity|]. split; [lia|]. intros _. split; [by eexists | lia].
Qed.

(** C5. For a non-empty frequency list of single characters, a tree is
    built; it is serialized without error when the characters are
    encodable; and whenever it is serialized, deserializing the bytes gives
    a tree with the same branching and the same characters at corresponding
    leaves. *)
Theorem tree_round_trip freq_list :
  freq_list ≠ [] →
  Forall (λ p : Z * str, ∃ c, p.2 = [c]) freq_list →
  ∃ tree,
    _build_huffman_tree freq_list = Ok (Some tree)
    ∧ (Forall (λ p : Z * str, Forall encodable p.2) freq_list →
       ∃ encoded, _encode_tree tree = Ok encoded)
    ∧ ∀ encoded, _encode_tree tree = Ok encoded →
        ∃ tree_str decoded,
          utf8_decode encoded = Ok tree_str
          ∧ _decode_tree tree_str = Ok (Some decoded)
          ∧ same_shape tree decoded.
Proof.
  intros Hne Hchars.
  destruct (_build_huffman_tree_spec freq_list Hne)
    as (tree & Hb & (Hfull & _ & _) & Hleaves).
  assert (Hcl : char_leaves tree).
  { unfold char_leaves. rewrite Hleaves. apply Forall_fmap.
    eapply Forall_impl; [exact Hchars|]. by intros [f c]. }
  exists tree. split; [done|]. unfold _encode_tree. rewrite encode_tree_string by done.
  split.
  - intros Henc. destruct (utf8_round_trip (tree_string tree)) as (encoded & He & _).
    + apply tree_string_chars; [done|].
      unfold encodable_leaves. rewrite Hleaves. apply Forall_fmap.
      eapply Forall_impl; [exact Henc|]. by intros [f c].
    + by exists encoded.
  - intros encoded He.
    destruct (decode_tree_string tree Hfull Hcl (S (length (tree_string tree))) [])
      as (decoded & Hdec & Hshape); [lia|].
    rewrite app_nil_r in Hdec.
    exists (tree_string tree), decoded.
    split; [by apply utf8_decode_encode|]. split; [|done].
    unfold _decode_tree. by rewrite Hdec.
Qed.

Lemma tree_round_trip_witness :
  ∃ tree,
    _build_huffman_tree [(2, [97]); (1, [0x20AC])]%Z = Ok (Some tree)
    ∧ (Forall (λ p : Z * str, Forall encodable p.2) [(2, [97]); (1, [0x20AC])]%Z →
       ∃ encoded, _encode_tree tree = Ok encoded)
    ∧ ∀ encoded, _encode_tree tree = Ok encoded →
        ∃ tree_str decoded,
          utf8_decode encoded = Ok tree_str
          ∧ _decode_tree tree_str = Ok (Some decoded)
          ∧ same_shape tree decoded.
Proof.
  apply (tree_round_trip [(2, [97]); (1, [0x20AC])]%Z).
  - discriminate.
  - repeat constructor; eexists; reflexivity.
Defined.

(** ** The header *)

Lemma from_bytes_nonneg_acc bs : ∀ acc, (0 ≤ acc)%Z →
  (0 ≤ foldl (λ acc b, acc * 256 + Z_of_byte b) acc bs)%Z.
Proof.
  induction bs as [|b bs IH]; intros acc Hacc; [done|].
  cbn. apply IH. pose proof (Z_of_byte_range b). lia.
Qed.

Lemma from_bytes_nonneg bs : (0 ≤ from_bytes bs)%Z.
Proof. by apply from_bytes_nonneg_acc. Qed.

Lemma read_header_fields file :
  let '(header, bin_in) := read_n 16 (open_bytes file) in
  from_bytes (take 8 header) = header_padding file
  ∧ from_bytes (drop 8 header) = header_tree_length file
  ∧ (read_all bin_in).1 = after_header file.
Proof.
  unfold read_n, read_all, open_bytes, header_padding, header_tree_length, after_header.
  cbn [content cursor fst]. rewrite drop_0, Nat.add_0_l.
  split; [|split].
  - by rewrite take_take.
  - by rewrite take_drop_commute.
  - rewrite length_take. destruct (decide (16 ≤ length file)%nat).
    + by rewrite Nat.min_l.
    + rewrite Nat.min_r by lia. by rewrite !drop_ge by lia.
Qed.

Lemma _read_headers_ok file :
  (0 ≤ header_padding file < 8)%Z →
  (header_tree_length file ≤ Z.of_nat (length (after_header file)))%Z →
  _read_headers (open_bytes file)
  = (Ok (header_padding file, header_tree_length file), mkBinaryIO file 16).
Proof.
  intros Hpad Htree. pose proof (read_header_fields file) as H.
  pose proof (from_bytes_nonneg (take 8 (drop 8 file))) as Hnn.
  unfold _read_headers. destruct (read_n 16 (open_bytes file)) as [header bin_in] eqn:Hr.
  destruct H as (-> & -> & Hrest).
  destruct (read_all bin_in) as [rest bin_in'] eqn:Hr'. cbn in Hrest. subst rest.
  fold (header_tree_length file) in Hnn.
  replace (header_padding file <? 0)%Z with false by (symmetry; apply Z.ltb_ge; lia).
  replace (header_tree_length file <? 0)%Z with false by (symmetry; apply Z.ltb_ge; lia).
  replace (8 <=? header_padding file)%Z with false by (symmetry; apply Z.leb_gt; lia).
  cbn [orb].
  replace (_ <? header_tree_length file)%Z with false by (symmetry; apply Z.ltb_ge; lia).
  f_equal. unfold read_all in Hr'. injection Hr' as _ <-.
  unfold read_n in Hr. injection Hr as _ <-. done.
Qed.

(** C4. If the padding length in the header of a file is not in [0, 8), or
    its tree length exceeds the number of bytes after the header, reading
    the header raises [CompressionMethodError]. *)
Theorem read_headers_rejects file :
  ¬ (0 ≤ header_padding file < 8)%Z
  ∨ (Z.of_nat (length (after_header file)) < header_tree_length file)%Z →
  (_read_headers (open_bytes file)).1 = Raise CompressionMethodError.
Proof.
  intros Hbad. pose proof (read_header_fields file) as H.
  unfold _read_headers. destruct (read_n 16 (open_bytes file)) as [header bin_in] eqn:Hr.
  destruct H as (-> & -> & Hrest).
  destruct (_ || _ || _) eqn:Hchk; [done|].
  destruct (read_all bin_in) as [rest bin_in'] eqn:Hr'. cbn in Hrest. subst rest.
  apply orb_false_elim in Hchk as [Hchk H8]. apply orb_false_elim in Hchk as [H0 _].
  apply Z.ltb_ge in H0. apply Z.leb_gt in H8.
  destruct Hbad as [Hbad|Hbad]; [lia|].
  replace (_ <? header_tree_length file)%Z with true by (symmetry; apply Z.ltb_lt; lia).
  done.
Qed.

Lemma read_headers_rejects_witness :
  (_read_headers (open_bytes
     [x00; x00; x00; x00; x00; x00; x00; x00;
      x00; x00; x00; x00; x00; x00; x00; x09; "1"; "a"]%byte)).1
  = Raise CompressionMethodError.
Proof.
  apply (read_headers_rejects
     [x00; x00; x00; x00; x00; x00; x00; x00;
      x00; x00; x00; x00; x00; x00; x00; x09; "1"; "a"]%byte).
  right. vm_compute. reflexivity.
Defined.

(** ** Decompression writes last *)

(** C10. When [decompress] raises, nothing has been written to the text
    output. *)
Theorem decompress_error_writes_nothing bin_in text_out e :
  (decompress bin_in text_out).1 = Raise e →
  (decompress bin_in text_out).2 = text_out.
Proof.
  unfold decompress.
  destruct (_read_headers bin_in) as [[[padding_len tree_len]|e0] bin_in1]; [|done].
  destruct (read_n (Z.to_nat tree_len) bin_in1) as [tree_bytes bin_in2].
  destruct (utf8_decode tree_bytes) as [tree_str|e1]; [|done].
  destruct (read_all bin_in2) as [encoded_text_bytes bin_in3].
  destruct (_decode tree_str _) as [decoded_text|e2]; [|done].
  discriminate.
Qed.

Lemma decompress_error_writes_nothing_witness :
  (decompress (open_bytes
     [x00; x00; x00; x00; x00; x00; x00; x00;
      x00; x00; x00; x00; x00; x00; x00; x01; "1"; x00]%byte) [[104; 105]%Z]).2
  = [[104; 105]%Z].
Proof.
  apply (decompress_error_writes_nothing _ _ IndexError).
  vm_compute. reflexivity.
Defined.

(** When [decompress] returns, it has written once, the decoded text. *)
Lemma decompress_ok_writes_once bin_in text_out :
  (decompress bin_in text_out).1 = Ok () →
  ∃ decoded_text, (decompress bin_in text_out).2 = text_out ++ [decoded_text].
Proof.
  unfold decompress.
  destruct (_read_headers bin_in) as [[[padding_len tree_len]|e0] bin_in1]; [|done].
  destruct (read_n (Z.to_nat tree_len) bin_in1) as [tree_bytes bin_in2].
  destruct (utf8_decode tree_bytes) as [tree_str|e1]; [|done].
  destruct (read_all bin_in2) as [encoded_text_bytes bin_in3].
  destruct (_decode tree_str _) as [decoded_text|e2]; [|done].
  intros _. by exists decoded_text.
Qed.

(** ** Texts of one distinct character *)

Lemma freq_dict_replicate c k : ∀ v,
  foldl count_char {[ [c] := v ]} (replicate k c) = {[ [c] := (v + Z.of_nat k)%Z ]}.
Proof.
  induction k as [|k IH]; intros v.
  - cbn. f_equal. lia.
  - cbn [replicate foldl]. unfold count_char at 2.
    rewrite lookup_singleton_eq, insert_singleton_eq. cbn [default from_option]. unfold id.
    rewrite IH. f_equal. lia.
Qed.

Lemma _count_frequencies_replicate c n :
  _count_frequencies (replicate (S n) c) = [(Z.of_nat (S n), [c])].
Proof.
  unfold _count_frequencies. cbn [replicate foldl]. unfold count_char at 2.
  rewrite lookup_empty, insert_empty. cbn [default from_option].
  rewrite freq_dict_replicate, map_to_list_singleton. cbn.
  do 3 f_equal. lia.
Qed.

Lemma _build_huffman_tree_single f c :
  _build_huffman_tree [(f, c)] = Ok (Some (new_node c f None None)).
Proof. reflexivity. Qed.

(** C2. For every text made of one character repeated, the tree is a
    single leaf and the code table gives the character the empty code, of
    length 0: the table has no 1-bit code for it. *)
Theorem single_character_code_is_empty c n :
  _build_huffman_tree (_count_frequencies (replicate (S n) c))
  = Ok (Some (new_node [c] (Z.of_nat (S n)) None None))
  ∧ (_get_codes (new_node [c] (Z.of_nat (S n)) None None)).2 = {[ [c] := Some [] ]}.
Proof.
  rewrite _count_frequencies_replicate, _build_huffman_tree_single.
  split; [done|]. unfold _get_codes. cbn. by rewrite insert_empty.
Qed.

(** ** Malformed trees *)

(** C3. The serialized tree ["01a"], an internal node whose second child
    is missing, is deserialized without error into a node with one child;
    [_decode] accepts it and [decompress] writes the empty text.  A leaf tag
    with no character after it raises [IndexError]. *)
Theorem decode_tree_accepts_truncated :
  _decode_tree [48; 49; 97]%Z
  = Ok (Some (new_node [] 0 (Some (new_node [97%Z] 0 None None)) None))
  ∧ _decode [48; 49; 97]%Z [] = Ok []
  ∧ decompress (open_bytes
      [x00; x00; x00; x00; x00; x00; x00; x00;
       x00; x00; x00; x00; x00; x00; x00; x03; "0"; "1"; "a"]%byte) []
    = (Ok (), [[]])
  ∧ _decode_tree [49]%Z = Raise IndexError.
Proof. repeat split; vm_compute; reflexivity. Qed.

(** Only the empty tree string is refused as invalid. *)
Lemma _decode_empty encoded_text : _decode [] encoded_text = Raise ValueError.
Proof. reflexivity. Qed.

(** ** Bit arrays and integers as bytes *)

Lemma bits8_of_byte_of_bits8 b7 b6 b5 b4 b3 b2 b1 b0 :
  bits8_of_byte (byte_of_bits8 b7 b6 b5 b4 b3 b2 b1 b0) = [b7; b6; b5; b4; b3; b2; b1; b0].
Proof. unfold bits8_of_byte, byte_of_bits8. by rewrite Byte.to_bits_of_bits. Qed.

Lemma padbits_range a : (0 ≤ padbits a < 8)%Z.
Proof. unfold padbits. apply Z.mod_pos_bound. lia. Qed.

Lemma padbits_cons8 b7 b6 b5 b4 b3 b2 b1 b0 (a : bitarray) :
  padbits (b7 :: b6 :: b5 :: b4 :: b3 :: b2 :: b1 :: b0 :: a) = padbits a.
Proof.
  unfold padbits. cbn [length]. rewrite !Nat2Z.inj_succ.
  replace (Z.succ (Z.succ (Z.succ (Z.succ (Z.succ (Z.succ (Z.succ (Z.succ
             (Z.of_nat (length a))))))))))%Z
    with (Z.of_nat (length a) + 1 * 8)%Z by lia.
  by rewrite Z.mod_add.
Qed.

(** The bytes of a bitarray hold its bits followed by the padding. *)
Lemma tobytes_bits n : ∀ a : bitarray,
  (length a ≤ n)%nat →
  frombytes (tobytes a) = a ++ replicate (Z.to_nat (padbits a)) false
  ∧ (8 * Z.of_nat (length (tobytes a)) = Z.of_nat (length a) + padbits a)%Z.
Proof.
  induction n as [|n IH]; intros a Hlen.
  - destruct a; [by vm_compute | cbn in Hlen; lia].
  - destruct a as [|b7 [|b6 [|b5 [|b4 [|b3 [|b2 [|b1 [|b0 rest]]]]]]]];
      try (split; [unfold frombytes; cbn [tobytes fmap list_fmap concat];
                   rewrite bits8_of_byte_of_bits8; reflexivity
                  | vm_compute; reflexivity]).
    + by vm_compute.
    + destruct (IH rest) as [Hbits Hl]; [cbn [length] in Hlen; lia|].
      rewrite padbits_cons8. cbn [tobytes]. split.
      * unfold frombytes in *. rewrite fmap_cons. cbn [concat].
        rewrite bits8_of_byte_of_bits8, Hbits. done.
      * cbn [length]. rewrite !Nat2Z.inj_succ. lia.
Qed.

Lemma frombytes_tobytes (a : bitarray) :
  frombytes (tobytes a) = a ++ replicate (Z.to_nat (padbits a)) false.
Proof. by apply (tobytes_bits (length a)). Qed.

Lemma length_tobytes (a : bitarray) :
  (8 * Z.of_nat (length (tobytes a)) = Z.of_nat (length a) + padbits a)%Z.
Proof. by apply (tobytes_bits (length a)). Qed.

Lemma drop_last_padding (a : bitarray) :
  drop_last (Z.to_nat (padbits a)) (frombytes (tobytes a)) = a.
Proof.
  unfold drop_last. rewrite frombytes_tobytes, length_app, length_replicate.
  rewrite Nat.add_sub. by rewrite take_app_length.
Qed.

Lemma length_be_bytes k : ∀ n, length (be_bytes k n) = k.
Proof.
  induction k as [|k IH]; intros n; [done|].
  cbn [be_bytes]. rewrite length_app, IH. cbn. lia.
Qed.

Lemma from_bytes_snoc bs b :
  from_bytes (bs ++ [b]) = (from_bytes bs * 256 + Z_of_byte b)%Z.
Proof. unfold from_bytes. by rewrite foldl_snoc. Qed.

Lemma from_bytes_be_bytes k : ∀ n,
  (0 ≤ n < 256 ^ Z.of_nat k)%Z → from_bytes (be_bytes k n) = n.
Proof.
  induction k as [|k IH]; intros n Hn.
  - cbn in *. lia.
  - cbn [be_bytes]. rewrite from_bytes_snoc.
    rewrite Nat2Z.inj_succ, Z.pow_succ_r in Hn by lia.
    rewrite IH by (Z.div_mod_to_equations; lia).
    rewrite Z_of_byte_of_Z by (Z.div_mod_to_equations; lia).
    Z.div_mod_to_equations; lia.
Qed.

Lemma to_bytes_from_bytes n k :
  (0 ≤ n < 256 ^ Z.of_nat k)%Z →
  ∃ bs, to_bytes n k = Ok bs ∧ length bs = k ∧ from_bytes bs = n.
Proof.
  intros Hn. exists (be_bytes k n). unfold to_bytes. rewrite decide_True by done.
  split; [done|]. split; [apply length_be_bytes | by apply from_bytes_be_bytes].
Qed.

(** ** [code_tree] only changes the field [code] *)

Lemma code_tree_full n : ∀ code, full (code_tree n code) ↔ full n.
Proof.
  induction n as [c f cd|c f l cd IHl|c f r cd IHr|c f l r cd IHl IHr] using node_ind;
    intros code; cbn; [done..|].
  by rewrite IHl, IHr.
Qed.

Lemma code_tree_leaves n : ∀ code, leaves (code_tree n code) = leaves n.
Proof.
  induction n as [c f cd|c f l cd IHl|c f r cd IHr|c f l r cd IHl IHr] using node_ind;
    intros code; cbn; [done..|].
  by rewrite IHl, IHr.
Qed.

Lemma code_tree_string n : ∀ code, tree_string (code_tree n code) = tree_string n.
Proof.
  induction n as [c f cd|c f l cd IHl|c f r cd IHr|c f l r cd IHl IHr] using node_ind;
    intros code; cbn; [done..|].
  by rewrite IHl, IHr.
Qed.

Lemma paths_leaves n : fst <$> paths n = fst <$> leaves n.
Proof.
  induction n as [c f cd|c f l cd IHl|c f r cd IHr|c f l r cd IHl IHr] using node_ind;
    cbn [paths leaves]; [done..|].
  rewrite !fmap_app, <- !list_fmap_compose, <- IHl, <- IHr.
  f_equal; apply list_fmap_ext; by intros ? [].
Qed.

(** ** The tree and the table of a text *)

Lemma text_tree text :
  text ≠ [] →
  ∃ tree, _build_huffman_tree (_count_frequencies text) = Ok (Some tree)
          ∧ full tree ∧ char_leaves tree
          ∧ NoDup (fst <$> leaves tree)
          ∧ ∀ s, s ∈ fst <$> leaves tree ↔ ∃ c, s = [c] ∧ c ∈ text.
Proof.
  intros Hne.
  destruct (_build_huffman_tree_spec (_count_frequencies text))
    as (tree & Hb & (Hfull & _ & _) & Hleaves).
  { by apply _count_frequencies_nonempty. }
  assert (Hfst : fst <$> leaves tree ≡ₚ snd <$> _count_frequencies text).
  { rewrite Hleaves, <- list_fmap_compose. done. }
  assert (Hin : ∀ s, s ∈ fst <$> leaves tree ↔ ∃ c, s = [c] ∧ c ∈ text).
  { intros s. rewrite Hfst, list_elem_of_fmap. split.
    - intros ([f s'] & -> & Hp). apply _count_frequencies_elem in Hp as (c & -> & Hc & _).
      by exists c.
    - intros (c & -> & Hc). exists (occurrences c text, [c]). split; [done|].
      apply _count_frequencies_elem. by exists c. }
  exists tree. repeat split; try done.
  - unfold char_leaves. apply Forall_forall. intros [s f] Hsf.
    destruct (proj1 (Hin s)) as (c & -> & Hc).
    { apply list_elem_of_fmap. by exists (s, f). }
    by exists c.
  - rewrite Hfst. apply _count_frequencies_NoDup.
  - by apply Hin.
  - by apply Hin.
Qed.

Lemma text_tree_encodable text tree :
  Forall encodable text →
  (∀ s, s ∈ fst <$> leaves tree ↔ ∃ c, s = [c] ∧ c ∈ text) →
  Forall (λ s, ∃ c, s = [c] ∧ encodable c) (fst <$> leaves tree).
Proof.
  intros Henc Hin. rewrite Forall_forall in Henc. apply Forall_forall.
  intros s (c & -> & Hc)%Hin. exists c. split; [done | by apply Henc].
Qed.

Lemma code_table_lookup text tree c :
  _build_huffman_tree (_count_frequencies text) = Ok (Some tree) →
  NoDup (fst <$> leaves tree) → [c] ∈ fst <$> leaves tree →
  ∃ p, ([c], p) ∈ paths tree ∧ code_table text !! [c] = Some (Some p)
       ∧ code_of (code_table text) c = p.
Proof.
  intros Hb Hnd Hc. rewrite <- paths_leaves in Hnd, Hc.
  apply list_elem_of_fmap in Hc as ([s p] & Hs & Hp). cbn in Hs. subst s.
  exists p. split; [done|].
  assert (code_table text !! [c] = Some (Some p)) as Hl.
  { unfold code_table. rewrite Hb. unfold _get_codes. cbn [snd].
    rewrite traverse_paths, code_tree_paths.
    by apply (enter_lookup_NoDup [] (paths tree) ∅ [c] p). }
  split; [done|]. unfold code_of. by rewrite Hl.
Qed.

Lemma _encode_text_loop_spec codes text : ∀ acc,
  (∀ c, c ∈ text → ∃ p, codes !! [c] = Some (Some p)) →
  _encode_text_loop text codes acc = Ok (acc ++ concat (code_of codes <$> text)).
Proof.
  induction text as [|c text IH]; intros acc Hc; cbn [_encode_text_loop].
  - cbn. by rewrite app_nil_r.
  - destruct (Hc c) as [p Hp]; [apply elem_of_cons; by left|].
    rewrite Hp, IH.
    + rewrite fmap_cons. cbn [concat]. unfold code_of at 2. rewrite Hp.
      by rewrite (assoc_L (++)).
    + intros c' Hc'. apply Hc. apply elem_of_cons. by right.
Qed.

(** ** The size of the serialized tree *)

Lemma length_tree_string n :
  full n → char_leaves n →
  (length (tree_string n) + 1 = 3 * length (leaves n))%nat.
Proof.
  induction n as [c f cd|c f l cd IHl|c f r cd IHr|c f l r cd IHl IHr] using node_ind;
    cbn [full]; try done.
  - intros _ Hc. apply Forall_cons in Hc as [(ch & Hch) _].
    cbn in Hch. subst c. reflexivity.
  - intros [Hl Hr] [Hcl Hcr]%char_leaves_inv.
    specialize (IHl Hl Hcl). specialize (IHr Hr Hcr).
    cbn [tree_string leaves length]. rewrite !length_app. lia.
Qed.

Lemma length_utf8_encode_char c b : utf8_encode_char c = Ok b → (length b ≤ 4)%nat.
Proof.
  unfold utf8_encode_char. repeat case_decide; intros [= <-]; cbn; lia.
Qed.

Lemma length_utf8_encode s : ∀ bs,
  utf8_encode s = Ok bs → (length bs ≤ 4 * length s)%nat.
Proof.
  induction s as [|c s IH]; intros bs; cbn [utf8_encode].
  - intros [= <-]. cbn. lia.
  - destruct (utf8_encode_char c) as [b|] eqn:Hb; [|done]. step.
    destruct (utf8_encode s) as [bs'|] eqn:Hs; [|done]. step.
    intros [= <-]. apply length_utf8_encode_char in Hb. specialize (IH bs' eq_refl).
    rewrite length_app. cbn [length]. lia.
Qed.

(** There are no more distinct characters than code points. *)
Lemma distinct_chars_bound (l : list str) :
  NoDup l → Forall (λ s, ∃ c, s = [c] ∧ encodable c) l →
  (length l ≤ Z.to_nat 0x110000)%nat.
Proof.
  intros Hnd Hl. rewrite Forall_forall in Hl.
  rewrite <- (length_seqZ 0 0x110000), <- (length_fmap (hd 0%Z) l).
  apply submseteq_length, NoDup_submseteq.
  - apply NoDup_fmap_2_strong; [|done].
    intros s1 s2 (c1 & -> & _)%Hl (c2 & -> & _)%Hl. cbn. by intros ->.
  - intros c (s & -> & (c' & -> & Hc)%Hl)%list_elem_of_fmap.
    cbn. apply elem_of_seqZ. unfold encodable in Hc. lia.
Qed.

(** ** What [compress] writes *)

Lemma to_bytes_inv n k bs :
  to_bytes n k = Ok bs → length bs = k ∧ from_bytes bs = n.
Proof.
  unfold to_bytes. case_decide; [|done]. intros [= <-].
  split; [apply length_be_bytes | by apply from_bytes_be_bytes].
Qed.

(** The steps of [compress] on a non-empty text: only the serialization
    of the tree and the two header fields can fail. *)
Lemma compress_body_steps text bin_out :
  text ≠ [] →
  ∃ tree,
    _build_huffman_tree (_count_frequencies text) = Ok (Some tree)
    ∧ full tree ∧ char_leaves tree ∧ NoDup (fst <$> leaves tree)
    ∧ (∀ s, s ∈ fst <$> leaves tree ↔ ∃ c, s = [c] ∧ c ∈ text)
    ∧ compress_body text bin_out =
      match utf8_encode (tree_string tree) with
      | Raise e => (Raise e, bin_out)
      | Ok encoded_tree =>
          match to_bytes (Z.of_nat (length encoded_tree)) 8 with
          | Raise e => (Raise e, bin_out)
          | Ok tree_len_info =>
              match to_bytes (padbits (code_bits text)) 8 with
              | Raise e => (Raise e, bin_out)
              | Ok padding_len_info =>
                  (Ok (), bin_out ++ [padding_len_info ++ tree_len_info; encoded_tree;
                                      tobytes (code_bits text)])
              end
          end
      end.
Proof.
  intros Hne.
  destruct (text_tree text Hne) as (tree & Hb & Hfull & Hcl & Hnd & Hin).
  exists tree. repeat (split; [done|]).
  unfold compress_body. rewrite Hb. unfold _get_codes.
  change (traverse (code_tree tree []) [] ∅) with (_get_codes tree).2.
  replace (_get_codes tree).2 with (code_table text)
    by (unfold code_table; by rewrite Hb).
  unfold _encode_text. rewrite _encode_text_loop_spec.
  - cbn [app]. fold (code_bits text).
    unfold _encode_tree. rewrite encode_tree_string by by apply code_tree_full.
    by rewrite code_tree_string.
  - intros c Hc. destruct (code_table_lookup text tree c Hb Hnd) as (p & _ & Hp & _).
    + apply Hin. by exists c.
    + by exists p.
Qed.

(** What [compress] has written when it returns. *)
Lemma compress_inv text bin_out :
  text ≠ [] → (compress text bin_out).1 = Ok () →
  ∃ tree encoded_tree padding_len_info tree_len_info,
    _build_huffman_tree (_count_frequencies text) = Ok (Some tree)
    ∧ full tree ∧ char_leaves tree ∧ NoDup (fst <$> leaves tree)
    ∧ (∀ s, s ∈ fst <$> leaves tree ↔ ∃ c, s = [c] ∧ c ∈ text)
    ∧ utf8_encode (tree_string tree) = Ok encoded_tree
    ∧ utf8_decode encoded_tree = Ok (tree_string tree)
    ∧ length padding_len_info = 8%nat
    ∧ from_bytes padding_len_info = padbits (code_bits text)
    ∧ length tree_len_info = 8%nat
    ∧ from_bytes tree_len_info = Z.of_nat (length encoded_tree)
    ∧ compress text bin_out
      = (Ok (), bin_out ++ [padding_len_info ++ tree_len_info; encoded_tree;
                            tobytes (code_bits text)]).
Proof.
  intros Hne Hok.
  destruct (compress_body_steps text bin_out Hne)
    as (tree & Hb & Hfull & Hcl & Hnd & Hin & Hsteps).
  unfold compress in *. rewrite Hsteps in *.
  destruct (utf8_encode (tree_string tree)) as [encoded_tree|e1] eqn:He.
  2: { by destruct e1. }
  destruct (to_bytes (Z.of_nat (length encoded_tree)) 8) as [tree_len_info|e2] eqn:Hti.
  2: { by destruct e2. }
  destruct (to_bytes (padbits (code_bits text)) 8) as [padding_len_info|e3] eqn:Hpi.
  2: { by destruct e3. }
  apply to_bytes_inv in Hti as [Htl Htf]. apply to_bytes_inv in Hpi as [Hpl Hpf].
  exists tree, encoded_tree, padding_len_info, tree_len_info.
  repeat (split; [done|]).
  split; [by apply utf8_decode_encode|]. done.
Qed.

(** [compress] returns on every text of encodable characters. *)
Lemma compress_ok text bin_out :
  Forall encodable text → (compress text bin_out).1 = Ok ().
Proof.
  intros Henc. destruct text as [|c0 text0]; [done|].
  set (text := c0 :: text0) in *.
  destruct (compress_body_steps text bin_out)
    as (tree & Hb & Hfull & Hcl & Hnd & Hin & Hsteps); [done|].
  pose proof (text_tree_encodable text tree Henc Hin) as Hel.
  destruct (utf8_round_trip (tree_string tree)) as (encoded_tree & He & Hd).
  { apply tree_string_chars; [done|]. unfold encodable_leaves.
    apply Forall_forall. intros [s f] Hsf. rewrite Forall_forall in Hel.
    destruct (Hel s) as (c & -> & Hc); [apply list_elem_of_fmap; by exists (s, f)|].
    cbn. by constructor. }
  assert (Hlen : (Z.of_nat (length encoded_tree) < 256 ^ Z.of_nat 8)%Z).
  { pose proof (length_utf8_encode _ _ He) as H1.
    pose proof (length_tree_string tree Hfull Hcl) as H2.
    assert (length (leaves tree) ≤ Z.to_nat 0x110000)%nat as H3.
    { rewrite <- (length_fmap fst). by apply distinct_chars_bound. }
    change (256 ^ Z.of_nat 8)%Z with 18446744073709551616%Z. lia. }
  destruct (to_bytes_from_bytes (padbits (code_bits text)) 8)
    as (padding_len_info & Hpi & Hpl & Hpf).
  { pose proof (padbits_range (code_bits text)).
    change (256 ^ Z.of_nat 8)%Z with 18446744073709551616%Z. lia. }
  destruct (to_bytes_from_bytes (Z.of_nat (length encoded_tree)) 8)
    as (tree_len_info & Hti & Htl & Htf); [lia|].
  unfold compress. by rewrite Hsteps, He, Hti, Hpi.
Qed.

Lemma compress_spec text bin_out :
  text ≠ [] → Forall encodable text →
  ∃ tree encoded_tree padding_len_info tree_len_info,
    _build_huffman_tree (_count_frequencies text) = Ok (Some tree)
    ∧ full tree ∧ char_leaves tree ∧ NoDup (fst <$> leaves tree)
    ∧ (∀ s, s ∈ fst <$> leaves tree ↔ ∃ c, s = [c] ∧ c ∈ text)
    ∧ utf8_encode (tree_string tree) = Ok encoded_tree
    ∧ utf8_decode encoded_tree = Ok (tree_string tree)
    ∧ length padding_len_info = 8%nat
    ∧ from_bytes padding_len_info = padbits (code_bits text)
    ∧ length tree_len_info = 8%nat
    ∧ from_bytes tree_len_info = Z.of_nat (length encoded_tree)
    ∧ compress text bin_out
      = (Ok (), bin_out ++ [padding_len_info ++ tree_len_info; encoded_tree;
                            tobytes (code_bits text)]).
Proof. intros Hne Henc. apply compress_inv; [done | by apply compress_ok]. Qed.

Lemma container_layout (padding_len_info tree_len_info encoded_tree payload : bytes) :
  length padding_len_info = 8%nat → length tree_len_info = 8%nat →
  let file := concat [padding_len_info ++ tree_len_info; encoded_tree; payload] in
  header_padding file = from_bytes padding_len_info
  ∧ header_tree_length file = from_bytes tree_len_info
  ∧ after_header file = encoded_tree ++ payload.
Proof.
  intros Hp Ht. cbn [concat]. rewrite app_nil_r, <- !(assoc_L (++)).
  unfold header_padding, header_tree_length, after_header.
  split; [|split].
  - by rewrite take_app_length'.
  - rewrite drop_app_length' by done. by rewrite take_app_length'.
  - rewrite (assoc_L (++)). rewrite drop_app_length'; [done|].
    rewrite length_app. lia.
Qed.

(** C6. For a non-empty text, [compress] returns when the characters are
    encodable; every character of the text has a code in the table; and in
    every file that [compress] writes, 8 times the number of payload bytes,
    minus the padding length stored in the header, is the number of bits of
    the concatenated codes of the characters of the text. *)
Theorem header_bit_accounting text :
  text ≠ [] →
  (Forall encodable text → ∃ file, compressed text = (Ok (), file))
  ∧ (∀ c, c ∈ text → ∃ code, code_table text !! [c] = Some (Some code))
  ∧ ∀ file, compressed text = (Ok (), file) →
      (8 * Z.of_nat (length (drop (Z.to_nat (header_tree_length file)) (after_header file)))
       - header_padding file
       = Z.of_nat (length (code_bits text)))%Z.
Proof.
  intros Hne. split; [|split].
  - intros Henc. destruct (compress_spec text [] Hne Henc)
      as (tree & encoded_tree & pad & len & _ & _ & _ & _ & _ & _ & _ & _ & _ & _ & _ & Hc).
    eexists. unfold compressed. by rewrite Hc.
  - intros c Hct. destruct (text_tree text Hne) as (tree & Hb & _ & _ & Hnd & Hin).
    destruct (code_table_lookup text tree c Hb Hnd) as (p & _ & Hp & _).
    + apply Hin. by exists c.
    + by exists p.
  - intros file Hfile. unfold compressed in Hfile.
    destruct (compress_inv text [] Hne)
      as (tree & encoded_tree & pad & len & Hb & Hfull & Hcl & Hnd & Hin & He & Hd
          & Hpl & Hpf & Htl & Htf & Hc).
    { destruct (compress text []) as [r out]. by injection Hfile as -> _. }
    rewrite Hc in Hfile. cbn [app] in Hfile.
    assert (file = concat [pad ++ len; encoded_tree; tobytes (code_bits text)]) as ->
      by congruence.
    destruct (container_layout pad len encoded_tree (tobytes (code_bits text)) Hpl Htl)
      as (Hhp & Hht & Hah).
    rewrite Hhp, Hht, Hah, Hpf, Htf, Nat2Z.id.
    rewrite drop_app_length. pose proof (length_tobytes (code_bits text)). lia.
Qed.

Lemma header_bit_accounting_witness :
  (Forall encodable [97; 97; 98; 0x20AC]%Z →
   ∃ file, compressed [97; 97; 98; 0x20AC]%Z = (Ok (), file))
  ∧ (∀ c, c ∈ [97; 97; 98; 0x20AC]%Z →
          ∃ code, code_table [97; 97; 98; 0x20AC]%Z !! [c] = Some (Some code))
  ∧ ∀ file, compressed [97; 97; 98; 0x20AC]%Z = (Ok (), file) →
      (8 * Z.of_nat (length (drop (Z.to_nat (header_tree_length file)) (after_header file)))
       - header_padding file
       = Z.of_nat (length (code_bits [97; 97; 98; 0x20AC]%Z)))%Z.
Proof. apply (header_bit_accounting [97; 97; 98; 0x20AC]%Z). discriminate. Defined.

(** ** Decoding the text *)

Lemma same_shape_paths t : ∀ t', same_shape t t' → paths t' = paths t.
Proof.
  induction t as [c f cd|c f l cd IHl|c f r cd IHr|c f l r cd IHl IHr] using node_ind;
    intros [c' f' [l'|] [r'|] cd']; cbn; try done.
  - by intros ->.
  - intros [Hl Hr]. by rewrite (IHl l' Hl), (IHr r' Hr).
Qed.

Lemma same_shape_full t : ∀ t', same_shape t t' → full t'.
Proof.
  induction t as [c f cd|c f l cd IHl|c f r cd IHr|c f l r cd IHl IHr] using node_ind;
    intros [c' f' [l'|] [r'|] cd']; cbn; try done.
  intros [Hl Hr]. split; [by apply IHl | by apply IHr].
Qed.

Lemma same_shape_internal t t' :
  same_shape t t' → is_internal t' = is_internal t.
Proof. destruct t as [c f [l|] [r|] cd], t' as [c' f' [l'|] [r'|] cd']; by cbn. Qed.

Lemma elem_of_paths_step (b : bool) c p (ps : list (str * bitarray)) :
  (c, p) ∈ prod_map id (cons b) <$> ps → ∃ q, p = b :: q ∧ (c, q) ∈ ps.
Proof. intros ([c' q] & [= -> ->] & Hin)%list_elem_of_fmap. by exists q. Qed.

(** From a child of an internal node, the bits of a path lead to its
    leaf, whose character is emitted, and the walk restarts at the root. *)
Lemma decode_child root n :
  full n → ∀ c q rest acc, (c, q) ∈ paths n →
  match left n, right n with
  | None, None => _decode_text_loop (q ++ rest) root root (acc ++ [char n])
  | _, _ => _decode_text_loop (q ++ rest) root n acc
  end = _decode_text_loop rest root root (acc ++ [c]).
Proof.
  induction n as [ch f cd|ch f l cd IHl|ch f r cd IHr|ch f l r cd IHl IHr] using node_ind;
    cbn [full]; try done.
  - intros _ c q rest acc Hin. cbn in Hin. apply list_elem_of_singleton in Hin.
    injection Hin as -> ->. done.
  - intros [Hl Hr] c q rest acc Hin. cbn [left right].
    cbn [paths] in Hin. apply elem_of_app in Hin as [Hin|Hin];
      apply elem_of_paths_step in Hin as (q' & -> & Hin);
      cbn [app _decode_text_loop left right].
    + by apply IHl.
    + by apply IHr.
Qed.

Lemma decode_path root c p rest acc :
  full root → is_internal root = true → (c, p) ∈ paths root →
  _decode_text_loop (p ++ rest) root root acc
  = _decode_text_loop rest root root (acc ++ [c]).
Proof.
  intros Hfull Hint Hin.
  pose proof (decode_child root root Hfull c p rest acc Hin) as H.
  destruct root as [ch f [l|] [r|] cd]; done.
Qed.

Lemma decode_text_codes codes root text : ∀ acc,
  full root → is_internal root = true →
  (∀ c, c ∈ text → ([c], code_of codes c) ∈ paths root) →
  _decode_text_loop (concat (code_of codes <$> text)) root root acc
  = acc ++ ((λ c, [c]) <$> text).
Proof.
  intros acc Hfull Hint. revert acc.
  induction text as [|c text IH]; intros acc Hc.
  - cbn. by rewrite app_nil_r.
  - rewrite !fmap_cons. cbn [concat].
    rewrite (decode_path root [c]) by (try done; apply Hc, elem_of_cons; by left).
    rewrite IH.
    + by rewrite <- (assoc_L (++)).
    + intros c' Hc'. apply Hc, elem_of_cons. by right.
Qed.

Lemma concat_singletons (text : str) : concat ((λ c, [c]) <$> text) = text.
Proof. induction text as [|c text IH]; [done|]. cbn. by rewrite IH. Qed.

(** ** The round trip *)

Lemma two_leaves_internal tree c d :
  full tree → c ≠ d → c ∈ fst <$> leaves tree → d ∈ fst <$> leaves tree →
  is_internal tree = true.
Proof.
  destruct tree as [ch f [l|] [r|] cd]; cbn; try done.
  intros _ Hne ->%list_elem_of_singleton ->%list_elem_of_singleton. done.
Qed.

(** The way of a non-empty text through [compress] and [decompress]: the
    text written is the payload bits decoded with the deserialized tree. *)
Lemma round_trip_pipeline text :
  text ≠ [] → Forall encodable text →
  ∃ tree decoded,
    _build_huffman_tree (_count_frequencies text) = Ok (Some tree)
    ∧ full tree ∧ NoDup (fst <$> leaves tree)
    ∧ (∀ s, s ∈ fst <$> leaves tree ↔ ∃ c, s = [c] ∧ c ∈ text)
    ∧ same_shape tree decoded
    ∧ round_trip text = (Ok (), [_decode_text (code_bits text) decoded]).
Proof.
  intros Hnil Henc.
  destruct (compress_spec text [] Hnil Henc)
    as (tree & encoded_tree & pad & len & Hb & Hfull & Hcl & Hnd & Hin & He & Hdec
        & Hpl & Hpf & Htl & Htf & Hcomp).
  destruct (container_layout pad len encoded_tree (tobytes (code_bits text)) Hpl Htl)
    as (Hhp & Hht & Hah).
  destruct (decode_tree_string tree Hfull Hcl (S (length (tree_string tree))) [])
    as (decoded & Hdt & Hshape); [lia|].
  rewrite app_nil_r in Hdt.
  exists tree, decoded. repeat (split; [done|]).
  unfold round_trip, compressed. rewrite Hcomp. cbn [app].
  set (file := concat [pad ++ len; encoded_tree; tobytes (code_bits text)]) in *.
  pose proof (padbits_range (code_bits text)) as Hpad.
  unfold decompress. rewrite _read_headers_ok.
  2: { rewrite Hhp, Hpf. done. }
  2: { rewrite Hht, Hah, Htf, length_app. lia. }
  rewrite Hhp, Hht, Hpf, Htf, Nat2Z.id.
  unfold read_n, read_all. cbn [content cursor].
  fold (after_header file). rewrite Hah, take_app_length, Hdec.
  replace (drop (16 + length encoded_tree) file) with (tobytes (code_bits text)).
  2: { rewrite <- drop_drop. fold (after_header file). rewrite Hah.
       by rewrite drop_app_length. }
  assert ((if (0 <? padbits (code_bits text))%Z
           then drop_last (Z.to_nat (padbits (code_bits text)))
                  (frombytes (tobytes (code_bits text)))
           else frombytes (tobytes (code_bits text))) = code_bits text) as ->.
  { destruct (Z.ltb_spec 0 (padbits (code_bits text))).
    - apply drop_last_padding.
    - rewrite frombytes_tobytes. replace (padbits (code_bits text)) with 0%Z by lia.
      cbn. by rewrite app_nil_r. }
  unfold _decode, _decode_tree. by rewrite Hdt.
Qed.

(** X23. Compression followed by decompression gives back every text of
    encodable characters that has two distinct characters or more. *)
Theorem round_trip_two_characters text c d :
  Forall encodable text → c ∈ text → d ∈ text → c ≠ d →
  round_trip text = (Ok (), [text]).
Proof.
  intros Henc Hc Hd Hne.
  assert (text ≠ []) as Hnil by (intros ->; by apply elem_of_nil in Hc).
  destruct (round_trip_pipeline text Hnil Henc)
    as (tree & decoded & Hb & Hfull & Hnd & Hin & Hshape & ->).
  do 3 f_equal.
  unfold _decode_text, code_bits. rewrite decode_text_codes.
  - cbn [app]. by rewrite concat_singletons.
  - by apply (same_shape_full tree).
  - rewrite (same_shape_internal tree) by done.
    apply (two_leaves_internal tree [c] [d]); [done | congruence |..];
      apply Hin; by eexists.
  - intros c' Hc'. rewrite (same_shape_paths tree) by done.
    destruct (code_table_lookup text tree c' Hb Hnd) as (p & Hp & _ & ->); [|done].
    apply Hin. by exists c'.
Qed.

Lemma _get_codes_leaf c f :
  (_get_codes (new_node c f None None)).2 = {[ c := Some [] ]}.
Proof. unfold _get_codes. cbn. by rewrite insert_empty. Qed.

(** X24. A text that is one encodable character repeated is compressed
    and decompressed without an exception, and what is written is the empty
    text. *)
Theorem round_trip_single_character c n :
  encodable c → round_trip (replicate (S n) c) = (Ok (), [[]]).
Proof.
  intros Hc.
  destruct (round_trip_pipeline (replicate (S n) c))
    as (tree & decoded & Hb & _ & _ & _ & Hshape & ->).
  { done. }
  { by apply Forall_replicate. }
  do 3 f_equal.
  assert (code_bits (replicate (S n) c) = []) as ->.
  { unfold code_bits, code_table.
    rewrite _count_frequencies_replicate, _build_huffman_tree_single, _get_codes_leaf.
    generalize (S n). intros k. induction k as [|k IH]; [done|].
    cbn [replicate]. rewrite fmap_cons. cbn [concat]. rewrite IH.
    unfold code_of. by rewrite lookup_singleton_eq. }
  done.
Qed.

Lemma round_trip_single_character_witness :
  round_trip (replicate 4 97%Z) = (Ok (), [[]]).
Proof. apply (round_trip_single_character 97 3). unfold encodable. lia. Defined.

Lemma round_trip_two_characters_witness :
  round_trip [104; 101; 108; 108; 111; 0x1F600]%Z
  = (Ok (), [[104; 101; 108; 108; 111; 0x1F600]%Z]).
Proof.
  apply (round_trip_two_characters _ 104 101)%Z.
  - repeat constructor; unfold encodable; lia.
  - repeat constructor.
  - apply list_elem_of_In. cbn. tauto.
  - discriminate.
Defined.

(** ** A worked example

    The text ["aaaabbbccd"]: the table, the tree, the codes and the file,
    as the Python code produces them. *)

Example example_frequencies :
  _count_frequencies [97; 97; 97; 97; 98; 98; 98; 99; 99; 100]%Z
  = [(4, [97]); (3, [98]); (2, [99]); (1, [100])]%Z.
Proof. vm_compute. reflexivity. Qed.

Example example_codes :
  code_table [97; 97; 97; 97; 98; 98; 98; 99; 99; 100]%Z
  = {[ [97%Z] := Some [false];
       [98%Z] := Some [true; false];
       [100%Z] := Some [true; true; false];
       [99%Z] := Some [true; true; true] ]}.
Proof. vm_compute. reflexivity. Qed.

Example example_file :
  compressed [97; 97; 97; 97; 98; 98; 98; 99; 99; 100]%Z
  = (Ok (),
     [x00; x00; x00; x00; x00; x00; x00; x05;
      x00; x00; x00; x00; x00; x00; x00; x0b;
      "0"; "1"; "a"; "0"; "1"; "b"; "0"; "1"; "d"; "1"; "c";
      x0a; xbf; xc0]%byte).
Proof. vm_compute. reflexivity. Qed.

(** ** Round trips that fail *)

(** C1. The empty text is compressed to an empty file, on which
    [decompress] raises [ValueError]; the text ["aaaa"] is compressed to a
    file with an empty payload, from which [decompress] writes the empty
    text. *)
Theorem round_trip_fails :
  compressed [] = (Ok (), [])
  ∧ round_trip [] = (Raise ValueError, [])
  ∧ round_trip [97; 97; 97; 97]%Z = (Ok (), [[]]).
Proof. repeat split; vm_compute; reflexivity. Qed.

(** ** The step bounds suffice

    No top-level function of the codec ends in [OutOfFuel]: the outcomes
    of the model are returns and Python exceptions. *)

Lemma _build_huffman_tree_total freq_list :
  ∃ tree, _build_huffman_tree freq_list = Ok tree.
Proof.
  destruct freq_list as [|p rest]; [by exists None|].
  destruct (_build_huffman_tree_inv (λ _, True)) with (freq_list := p :: rest)
    as (tree & -> & _); try done.
  by eexists.
Qed.

Lemma _encode_text_loop_fuel codes text : ∀ acc,
  _encode_text_loop text codes acc ≠ Raise OutOfFuel.
Proof.
  induction text as [|c text IH]; intros acc; cbn [_encode_text_loop]; [done|].
  destruct (codes !! [c]) as [[code|]|]; [apply IH | done..].
Qed.

Lemma utf8_encode_fuel s : utf8_encode s ≠ Raise OutOfFuel.
Proof.
  induction s as [|c s IH]; cbn [utf8_encode]; [done|].
  unfold utf8_encode_char. repeat case_decide; step; try done;
    destruct (utf8_encode s) as [bs|e]; step; congruence.
Qed.

Lemma encode_tree_fuel n : encode_tree n ≠ Raise OutOfFuel.
Proof.
  induction n as [c f cd|c f l cd IHl|c f r cd IHr|c f l r cd IHl IHr] using node_ind;
    cbn [encode_tree]; try done.
  - pose proof (utf8_encode_fuel c). destruct (utf8_encode c); step; congruence.
  - destruct (encode_tree l) as [a|e]; step; [|congruence].
    destruct (encode_tree r) as [b|e]; step; congruence.
Qed.

Lemma compress_fuel text_in bin_out :
  (compress text_in bin_out).1 ≠ Raise OutOfFuel.
Proof.
  unfold compress, compress_body.
  destruct (_build_huffman_tree_total (_count_frequencies text_in)) as [[tree|] ->];
    [|done].
  destruct (_get_codes tree) as [tree' codes].
  pose proof (_encode_text_loop_fuel codes text_in []) as H1.
  unfold _encode_text. destruct (_encode_text_loop text_in codes []) as [bits|e1].
  2: { destruct e1; done. }
  pose proof (encode_tree_fuel tree') as H2.
  unfold _encode_tree. destruct (encode_tree tree') as [encoded_tree|e2].
  2: { destruct e2; done. }
  unfold to_bytes. repeat case_decide; done.
Qed.

Lemma utf8_decode_error bs e : utf8_decode bs = Raise e → e = UnicodeDecodeError.
Proof.
  revert e. induction bs as [bs IH] using (induction_ltof1 _ length).
  unfold ltof in IH. intros e.
  destruct bs as [|b0 r0]; cbn [utf8_decode]; [done|].
  repeat match goal with
  | |- context [if ?b then _ else _] => destruct b
  | |- context [match ?l with [] => _ | _ :: _ => _ end] => destruct l
  | |- context [utf8_decode ?l] =>
      let H := fresh in
      pose proof (IH l) as H; destruct (utf8_decode l);
      [|intros [= <-]; apply H; [cbn [length]; lia | done]]
  | |- _ => step
  end; try done; try (intros [= <-]; done).
Qed.

Lemma _decode_fuel tree_str encoded_text :
  _decode tree_str encoded_text ≠ Raise OutOfFuel.
Proof.
  unfold _decode, _decode_tree.
  destruct (decode_tree_fuel (S (length tree_str)) tree_str) as [->|(t & rest & -> & _)];
    [lia | done |].
  step. by destruct t.
Qed.


Lemma decompress_fuel bin_in text_out :
  (decompress bin_in text_out).1 ≠ Raise OutOfFuel.
Proof.
  unfold decompress, _read_headers.
  destruct (read_n 16 bin_in) as [header bin_in1].
  destruct (_ || _ || _); [done|].
  destruct (read_all bin_in1) as [rest bin_in2].
  destruct (_ <? _)%Z; [done|].
  destruct (read_n _ _) as [tree_bytes bin_in3].
  destruct (utf8_decode tree_bytes) as [tree_str|e] eqn:Hu.
  2: { apply utf8_decode_error in Hu as ->. done. }
  destruct (read_all bin_in3) as [encoded_text_bytes bin_in4].
  pose proof (_decode_fuel tree_str
    (if (0 <? from_bytes (take 8 header))%Z
     then drop_last (Z.to_nat (from_bytes (take 8 header))) (frombytes encoded_text_bytes)
     else frombytes encoded_text_bytes)) as H.
  destruct (_decode tree_str _) as [decoded_text|e]; [done|].
  cbn. congruence.
Qed.

(** * Further properties of the codec *)

(** ** Reading the header *)

(** X1. [_read_headers] returns the two fields exactly when the padding
    length is in [0, 8) and the tree length does not exceed the number of
    bytes after the header; the stream is then at offset 16, whatever was
    read for the check. *)
Theorem read_headers_accepts file p t bin_in' :
  _read_headers (open_bytes file) = (Ok (p, t), bin_in') ↔
  p = header_padding file ∧ t = header_tree_length file
  ∧ (0 ≤ p < 8)%Z ∧ (t ≤ Z.of_nat (length (after_header file)))%Z
  ∧ bin_in' = mkBinaryIO file 16.
Proof.
  split.
  - pose proof (read_header_fields file) as H.
    pose proof (from_bytes_nonneg (take 8 file)) as Hnn.
    fold (header_padding file) in Hnn.
    unfold _read_headers.
    destruct (read_n 16 (open_bytes file)) as [header bin_in] eqn:Hr.
    destruct H as (-> & -> & Hrest).
    destruct (_ || _ || _) eqn:Hchk; [done|].
    destruct (read_all bin_in) as [rest bin_in2] eqn:Hr'. cbn in Hrest. subst rest.
    apply orb_false_elim in Hchk as [Hchk H8]. apply Z.leb_gt in H8.
    destruct (Z.ltb_spec (Z.of_nat (length (after_header file))) (header_tree_length file));
      [done|].
    intros [= <- <- <-]. repeat split; try lia.
    unfold read_all in Hr'. injection Hr' as _ <-.
    unfold read_n in Hr. by injection Hr as _ <-.
  - intros (-> & -> & Hp & Ht & ->). by apply _read_headers_ok.
Qed.

(** X2. A file of at most 8 bytes is not refused for being short: its
    bytes are read as the padding length, the tree length is 0, and the
    header is accepted when the padding length is below 8. *)
Theorem read_headers_short_file file :
  (length file ≤ 8)%nat → (from_bytes file < 8)%Z →
  _read_headers (open_bytes file) = (Ok (from_bytes file, 0%Z), mkBinaryIO file 16).
Proof.
  intros Hlen Hpad.
  assert (header_padding file = from_bytes file) as Hp.
  { unfold header_padding. by rewrite take_ge. }
  assert (header_tree_length file = 0%Z) as Ht.
  { unfold header_tree_length. by rewrite drop_ge. }
  rewrite <- Hp, <- Ht. apply _read_headers_ok.
  - rewrite Hp. pose proof (from_bytes_nonneg file). lia.
  - rewrite Ht. lia.
Qed.

Lemma read_headers_short_file_witness :
  _read_headers (open_bytes [x05]) = (Ok (from_bytes [x05], 0%Z), mkBinaryIO [x05] 16).
Proof. apply (read_headers_short_file [x05]); [cbn; lia | vm_compute; reflexivity]. Defined.

(** ** Tree strings *)




(** ** Encoding a text with a table *)

(** X5. When every character of the text has a code in the table,
    [_encode_text] returns the codes of the characters, concatenated in the
    order of the text. *)
Theorem encode_text_concat text codes :
  (∀ c, c ∈ text → ∃ code, codes !! [c] = Some (Some code)) →
  _encode_text text codes = Ok (concat (code_of codes <$> text)).
Proof. intros H. unfold _encode_text. by rewrite _encode_text_loop_spec. Qed.

Lemma encode_text_concat_witness :
  _encode_text [97; 98; 97]%Z
    (<[ [97%Z] := Some [false] ]> (<[ [98%Z] := Some [true; true] ]> ∅))
  = Ok (concat (code_of (<[ [97%Z] := Some [false] ]> (<[ [98%Z] := Some [true; true] ]> ∅))
                <$> [97; 98; 97]%Z)).
Proof.
  apply encode_text_concat. intros c Hc.
  apply list_elem_of_In in Hc. cbn in Hc.
  destruct Hc as [<-|[<-|[<-|[]]]]; eexists; vm_compute; reflexivity.
Defined.

Lemma _encode_text_loop_app codes pre : ∀ post acc,
  (∀ c, c ∈ pre → ∃ code, codes !! [c] = Some (Some code)) →
  _encode_text_loop (pre ++ post) codes acc
  = _encode_text_loop post codes (acc ++ concat (code_of codes <$> pre)).
Proof.
  induction pre as [|c pre IH]; intros post acc Hc.
  - cbn. by rewrite app_nil_r.
  - destruct (Hc c) as [p Hp]; [apply elem_of_cons; by left|].
    cbn [app _encode_text_loop]. rewrite Hp, IH.
    + rewrite fmap_cons. cbn [concat]. unfold code_of at 2. rewrite Hp.
      by rewrite (assoc_L (++)).
    + intros c' Hc'. apply Hc, elem_of_cons. by right.
Qed.

(** X6. A character without an entry in the table makes [_encode_text]
    raise [KeyError], when the characters before it have codes. *)
Theorem encode_text_missing_code pre c post codes :
  (∀ x, x ∈ pre → ∃ code, codes !! [x] = Some (Some code)) →
  codes !! [c] = None →
  _encode_text (pre ++ c :: post) codes = Raise KeyError.
Proof.
  intros Hpre Hc. unfold _encode_text. rewrite _encode_text_loop_app by done.
  cbn [_encode_text_loop]. by rewrite Hc.
Qed.

Lemma encode_text_missing_code_witness :
  _encode_text ([97%Z] ++ 98%Z :: [97%Z]) (<[ [97%Z] := Some [false] ]> ∅)
  = Raise KeyError.
Proof.
  apply encode_text_missing_code.
  - intros x Hx. apply list_elem_of_singleton in Hx as ->. eexists. vm_compute. reflexivity.
  - vm_compute. reflexivity.
Defined.

(** ** Exceptions and writes *)

(** X7. When [compress] raises, nothing has been written to the binary
    output. *)
Theorem compress_error_writes_nothing text_in bin_out e :
  (compress text_in bin_out).1 = Raise e →
  (compress text_in bin_out).2 = bin_out.
Proof.
  unfold compress, compress_body.
  destruct (_build_huffman_tree (_count_frequencies text_in)) as [[tree|]|e0];
    [|done|by destruct e0].
  destruct (_get_codes tree) as [tree' codes].
  destruct (_encode_text text_in codes) as [bits|e1]; [|by destruct e1].
  destruct (_encode_tree tree') as [encoded_tree|e2]; [|by destruct e2].
  destruct (to_bytes _ 8) as [tree_len_info|e3]; [|by destruct e3].
  destruct (to_bytes _ 8) as [padding_len_info|e4]; [|by destruct e4].
  done.
Qed.

Lemma compress_error_writes_nothing_witness :
  (compress [97; 0xD800]%Z [[x00]]).2 = [[x00]].
Proof.
  apply (compress_error_writes_nothing _ _ UnicodeEncodeError).
  vm_compute. reflexivity.
Defined.

Lemma utf8_decode_nil bs : utf8_decode bs = Ok [] → bs = [].
Proof.
  destruct bs as [|b0 r0]; [done|]. cbn [utf8_decode].
  repeat match goal with
  | |- context [if ?b then _ else _] => destruct b
  | |- context [match ?l with [] => _ | _ :: _ => _ end] => destruct l
  | |- context [utf8_decode ?l] => destruct (utf8_decode l)
  | |- _ => step
  end; done.
Qed.




(** X9. A file whose header is in range and gives the tree length 0 has
    no tree: [decompress] raises [ValueError] and writes nothing.  The
    empty file is such a file. *)
Theorem decompress_no_tree file text_out :
  (0 ≤ header_padding file < 8)%Z → header_tree_length file = 0%Z →
  decompress (open_bytes file) text_out = (Raise ValueError, text_out).
Proof.
  intros Hp Ht. unfold decompress. rewrite _read_headers_ok; [|done|lia].
  rewrite Ht. unfold read_n. cbn [content cursor Z.to_nat]. by rewrite take_0.
Qed.

Lemma decompress_no_tree_witness :
  decompress (open_bytes []) [[104%Z]] = (Raise ValueError, [[104%Z]]).
Proof.
  apply (decompress_no_tree []).
  - vm_compute. split; [discriminate | reflexivity].
  - vm_compute. reflexivity.
Defined.

(** ** What [compress] raises and writes *)

Lemma utf8_encode_char_encodable c b : utf8_encode_char c = Ok b → encodable c.
Proof.
  unfold utf8_encode_char, encodable. repeat case_decide; intros [= <-]; lia.
Qed.

Lemma utf8_encode_char_error c e : utf8_encode_char c = Raise e → e = UnicodeEncodeError.
Proof. unfold utf8_encode_char. repeat case_decide; by intros [= <-]. Qed.

Lemma utf8_encode_encodable s : ∀ bs, utf8_encode s = Ok bs → Forall encodable s.
Proof.
  induction s as [|c s IH]; intros bs; cbn [utf8_encode]; [constructor|].
  destruct (utf8_encode_char c) as [b|e] eqn:Hb; [|done]. step.
  destruct (utf8_encode s) as [bs'|e] eqn:Hs; [|done]. step. intros _.
  constructor; [by eapply utf8_encode_char_encodable | by eapply IH].
Qed.

Lemma utf8_encode_error s e : utf8_encode s = Raise e → e = UnicodeEncodeError.
Proof.
  induction s as [|c s IH]; cbn [utf8_encode]; [done|].
  destruct (utf8_encode_char c) as [b|e'] eqn:Hb; step.
  - destruct (utf8_encode s) as [bs'|e'] eqn:Hs; step; [done|].
    intros [= <-]. by apply IH.
  - intros [= <-]. by eapply utf8_encode_char_error.
Qed.

Lemma leaf_chars_in_tree_string t s x :
  s ∈ fst <$> leaves t → x ∈ s → x ∈ tree_string t.
Proof.
  induction t as [c f cd|c f l cd IHl|c f r cd IHr|c f l r cd IHl IHr] using node_ind;
    cbn [leaves tree_string fmap list_fmap fst].
  1-3: intros ->%list_elem_of_singleton Hx; apply elem_of_cons; by right.
  rewrite fmap_app, elem_of_app. intros [Hs|Hs] Hx;
    apply elem_of_cons; right; apply elem_of_app; [left; by apply IHl | right; by apply IHr].
Qed.

(** X10. [compress] returns when every character of the text is
    encodable in UTF-8; otherwise it raises [UnicodeEncodeError], which its
    handler does not catch, and writes nothing.  It raises nothing else. *)
Theorem compress_outcome text_in bin_out :
  (Forall encodable text_in ∧ (compress text_in bin_out).1 = Ok ())
  ∨ (¬ Forall encodable text_in
     ∧ compress text_in bin_out = (Raise UnicodeEncodeError, bin_out)).
Proof.
  destruct text_in as [|c0 text0]; [left; by split|].
  set (text := c0 :: text0).
  destruct (compress_body_steps text bin_out)
    as (tree & Hb & Hfull & Hcl & Hnd & Hin & Hsteps); [done|].
  destruct (utf8_encode (tree_string tree)) as [encoded_tree|e] eqn:He.
  - left. assert (Forall encodable text) as Henc.
    { apply utf8_encode_encodable in He. rewrite Forall_forall in He.
      apply Forall_forall. intros c Hc. apply He.
      apply (leaf_chars_in_tree_string tree [c]).
      - apply Hin. by exists c.
      - by apply list_elem_of_singleton. }
    split; [done | by apply compress_ok].
  - right. apply utf8_encode_error in He as Hee. subst e. split.
    + intros Henc. pose proof (compress_ok text bin_out Henc) as Hok.
      unfold compress in Hok. by rewrite Hsteps in Hok.
    + unfold compress. by rewrite Hsteps.
Qed.

(** X11. The header of a file written by [compress] for a non-empty text
    passes [_read_headers]: the padding length read is the number of pad
    bits of the encoded text, and the file has 16 bytes of header, the bytes
    of the tree and one byte for every 8 bits of the padded text. *)
Theorem compressed_header_valid text file :
  text ≠ [] → compressed text = (Ok (), file) →
  _read_headers (open_bytes file)
  = (Ok (padbits (code_bits text), header_tree_length file), mkBinaryIO file 16)
  ∧ (Z.of_nat (length file)
     = 16 + header_tree_length file
       + (Z.of_nat (length (code_bits text)) + padbits (code_bits text)) / 8)%Z.
Proof.
  intros Hne Hfile. unfold compressed in Hfile.
  destruct (compress_inv text [] Hne)
    as (tree & encoded_tree & pad & len & Hb & Hfull & Hcl & Hnd & Hin & He & Hd
        & Hpl & Hpf & Htl & Htf & Hc).
  { destruct (compress text []) as [r out]. by injection Hfile as -> _. }
  rewrite Hc in Hfile. cbn [app] in Hfile.
  assert (file = concat [pad ++ len; encoded_tree; tobytes (code_bits text)]) as Hf
    by congruence.
  destruct (container_layout pad len encoded_tree (tobytes (code_bits text)) Hpl Htl)
    as (Hhp & Hht & Hah).
  rewrite <- Hf in Hhp, Hht, Hah.
  pose proof (padbits_range (code_bits text)) as Hpad.
  pose proof (length_tobytes (code_bits text)) as Hlt.
  split.
  - rewrite <- Hpf, <- Hhp. apply _read_headers_ok.
    + rewrite Hhp, Hpf. done.
    + rewrite Hht, Hah, Htf, length_app. lia.
  - rewrite Hht, Htf, <- Hlt.
    rewrite (Z.mul_comm 8), Z.div_mul by done.
    rewrite Hf. cbn [concat]. rewrite app_nil_r, !length_app, Hpl, Htl. lia.
Qed.

Lemma compressed_header_valid_witness :
  _read_headers (open_bytes (compressed [97; 98; 97]%Z).2)
  = (Ok (padbits (code_bits [97; 98; 97]%Z),
         header_tree_length (compressed [97; 98; 97]%Z).2),
     mkBinaryIO (compressed [97; 98; 97]%Z).2 16)
  ∧ (Z.of_nat (length (compressed [97; 98; 97]%Z).2)
     = 16 + header_tree_length (compressed [97; 98; 97]%Z).2
       + (Z.of_nat (length (code_bits [97; 98; 97]%Z))
          + padbits (code_bits [97; 98; 97]%Z)) / 8)%Z.
Proof.
  apply (compressed_header_valid [97; 98; 97]%Z); [discriminate|].
  vm_compute. reflexivity.
Defined.

(** ** The frequency table *)

(** X12. The frequencies of the table are positive and add up to the
    number of characters of the text. *)
Theorem frequencies_total text :
  Forall (λ p : Z * str, (1 ≤ p.1)%Z) (_count_frequencies text)
  ∧ sumZ (fst <$> _count_frequencies text) = Z.of_nat (length text).
Proof.
  split; [|apply _count_frequencies_total].
  apply Forall_forall. intros [f s] H.
  apply _count_frequencies_elem in H as (c & -> & Hc & ->).
  pose proof (occurrences_pos c text Hc). cbn. lia.
Qed.

Lemma occurrences_perm c text text' :
  text ≡ₚ text' → occurrences c text = occurrences c text'.
Proof. intros Hp. unfold occurrences. by rewrite Hp. Qed.

(** X13. The table depends on the characters of the text and their
    numbers only, not on their order: the order in which the dictionary
    meets the characters is undone by the sort. *)
Theorem count_frequencies_permutation text text' :
  text ≡ₚ text' → _count_frequencies text = _count_frequencies text'.
Proof.
  intros Hp. unfold _count_frequencies. do 3 f_equal.
  apply map_eq. intros k.
  destruct (foldl count_char ∅ text !! k) as [f|] eqn:H1.
  - destruct (freq_dict_keys _ _ _ H1) as [c ->].
    rewrite freq_dict_lookup in H1 |- *.
    case_decide as Hc; [|done]. rewrite decide_True by by rewrite <- Hp.
    by rewrite <- (occurrences_perm c text text').
  - destruct (foldl count_char ∅ text' !! k) as [f'|] eqn:H2; [|done].
    destruct (freq_dict_keys _ _ _ H2) as [c ->].
    rewrite freq_dict_lookup in H1, H2.
    case_decide as Hc; [|done]. rewrite decide_True in H1 by by rewrite Hp. done.
Qed.

Lemma count_frequencies_permutation_witness :
  _count_frequencies [97; 98; 97]%Z = _count_frequencies [98; 97; 97]%Z.
Proof. apply count_frequencies_permutation. apply perm_swap. Defined.

(** ** Labels *)

Lemma labelled_char t : labelled t → char t = concat (fst <$> leaves t).
Proof.
  induction t as [c f cd|c f l cd IHl|c f r cd IHr|c f l r cd IHl IHr] using node_ind;
    cbn; rewrite ?app_nil_r; try done.
  intros (-> & Hl & Hr). by rewrite fmap_app, concat_app, <- IHl, <- IHr.
Qed.

(** X14. In the tree built from a frequency list, the label of every
    internal node is the label of its left child followed by that of its
    right child, so that the label of the root is the characters of the
    leaves from left to right: each string of the list once. *)
Theorem node_labels freq_list tree :
  _build_huffman_tree freq_list = Ok (Some tree) →
  labelled tree
  ∧ char tree = concat (fst <$> leaves tree)
  ∧ fst <$> leaves tree ≡ₚ snd <$> freq_list.
Proof.
  intros Hb.
  assert (freq_list ≠ []) as Hne by (intros ->; discriminate).
  destruct (_build_huffman_tree_inv
              (λ forest, Forall labelled forest
                         ∧ concat (leaves <$> forest) ≡ₚ swap_pair <$> freq_list))
    with (freq_list := freq_list) as (tree' & Hb' & HF & HL).
  - intros l l' Hp [HF HL]. split; by rewrite <- Hp.
  - intros l r rest [HF HL].
    apply Forall_cons in HF as [Gl HF]. apply Forall_cons in HF as [Gr HF].
    split.
    + apply Forall_cons. split; [by repeat split | done].
    + rewrite <- HL. cbn. by rewrite (assoc_L (++)).
  - done.
  - split; [|by rewrite leaves_initial].
    apply Forall_fmap, Forall_true. by intros [f c].
  - rewrite Hb in Hb'. injection Hb' as <-.
    apply Forall_cons in HF as [Hlab _]. cbn in HL. rewrite app_nil_r in HL.
    split; [done|]. split; [by apply labelled_char|].
    rewrite HL, <- list_fmap_compose. done.
Qed.

Lemma node_labels_witness :
  labelled (new_node [97; 98]%Z 3 (Some (new_node [97%Z] 1 None None))
                                  (Some (new_node [98%Z] 2 None None)))
  ∧ char (new_node [97; 98]%Z 3 (Some (new_node [97%Z] 1 None None))
                                (Some (new_node [98%Z] 2 None None)))
    = concat (fst <$> leaves (new_node [97; 98]%Z 3 (Some (new_node [97%Z] 1 None None))
                                (Some (new_node [98%Z] 2 None None))))
  ∧ fst <$> leaves (new_node [97; 98]%Z 3 (Some (new_node [97%Z] 1 None None))
                                (Some (new_node [98%Z] 2 None None)))
    ≡ₚ snd <$> [(2, [98]); (1, [97])]%Z.
Proof. apply (node_labels [(2, [98]); (1, [97])]%Z). vm_compute. reflexivity. Defined.

(** ** Lengths of codes *)

Lemma leaves_nonempty t : (1 ≤ length (leaves t))%nat.
Proof.
  induction t as [c f cd|c f l cd IHl|c f r cd IHr|c f l r cd IHl IHr] using node_ind;
    cbn; rewrite ?length_app; lia.
Qed.

Lemma path_length t : ∀ c p,
  (c, p) ∈ paths t → (length p < length (leaves t))%nat.
Proof.
  induction t as [ch f cd|ch f l cd IHl|ch f r cd IHr|ch f l r cd IHl IHr] using node_ind;
    intros c p; cbn [paths leaves].
  1-3: intros [= -> ->]%list_elem_of_singleton; cbn; lia.
  rewrite length_app. pose proof (leaves_nonempty l). pose proof (leaves_nonempty r).
  intros [Hq|Hq]%elem_of_app; apply elem_of_paths_step in Hq as (q & -> & Hq); cbn [length].
  - apply IHl in Hq. lia.
  - apply IHr in Hq. lia.
Qed.

(** X15. Every code of the table of a text is shorter than the number of
    distinct characters of the text. *)
Theorem code_length_bound text c code :
  code_table text !! c = Some (Some code) →
  (length code < length (_count_frequencies text))%nat.
Proof.
  unfold code_table.
  destruct (_build_huffman_tree (_count_frequencies text)) as [[tree|]|e] eqn:Hb;
    [|by rewrite lookup_empty..].
  intros H. apply _get_codes_lookup in H as (p & Hp & [= ->]).
  assert (_count_frequencies text ≠ []) as Hne by (intros Heq; by rewrite Heq in Hb).
  destruct (_build_huffman_tree_spec _ Hne) as (tree' & Hb' & _ & Hleaves).
  rewrite Hb in Hb'. injection Hb' as <-.
  apply path_length in Hp.
  assert (length (leaves tree) = length (_count_frequencies text)) as <-
    by (by rewrite Hleaves, length_fmap).
  done.
Qed.

Lemma code_length_bound_witness :
  (length [true; true] < length (_count_frequencies [97; 98; 99; 97]%Z))%nat.
Proof.
  apply (code_length_bound [97; 98; 99; 97]%Z [98%Z]). vm_compute. reflexivity.
Defined.

Lemma sum_by_distinct (g : Z → Z) (D : list Z) : ∀ text : str,
  NoDup D → (∀ c, c ∈ text → c ∈ D) →
  sumZ (g <$> text) = sumZ ((λ c, occurrences c text * g c)%Z <$> D).
Proof.
  intros text Hnd. induction text as [|x text IH]; intros Hin.
  - clear. induction D as [|d D IHD]; [reflexivity|].
    rewrite fmap_cons. cbn [sumZ]. rewrite <- IHD. reflexivity.
  - cbn [fmap list_fmap sumZ]. rewrite IH by (intros c Hc; apply Hin, elem_of_cons; by right).
    assert (x ∈ D) as Hx by (apply Hin, elem_of_cons; by left).
    clear IH Hin. induction D as [|d D IHD]; [by apply elem_of_nil in Hx|].
    apply NoDup_cons in Hnd as [Hd Hnd]. cbn [fmap list_fmap sumZ].
    assert (occurrences d (x :: text) = occurrences d text + (if decide (x = d) then 1 else 0))%Z
      as ->.
    { unfold occurrences. destruct (decide (x = d)) as [->|Hne].
      - rewrite filter_cons_True by done. cbn [length]. lia.
      - rewrite filter_cons_False by done. lia. }
    destruct (decide (x = d)) as [->|Hne].
    + assert (sumZ ((λ c, occurrences c (d :: text) * g c)%Z <$> D)
              = sumZ ((λ c, occurrences c text * g c)%Z <$> D)) as ->; [|lia].
      f_equal. apply list_fmap_ext. intros i c Hc.
      apply list_elem_of_lookup_2 in Hc.
      unfold occurrences. rewrite filter_cons_False; [done|]. by intros ->.
    + apply elem_of_cons in Hx as [->|Hx]; [done|].
      specialize (IHD Hnd Hx). lia.
Qed.

(** X16. The number of bits of the encoded text is the sum, over the
    entries of the frequency table, of the frequency times the length of the
    code of the character. *)
Theorem encoded_length text :
  Z.of_nat (length (code_bits text))
  = sumZ ((λ p : Z * str, p.1 * Z.of_nat (length (entry_code (code_table text) p.2)))%Z
          <$> _count_frequencies text).
Proof.
  unfold code_bits.
  assert (∀ l : list bitarray,
            Z.of_nat (length (concat l)) = sumZ ((λ p, Z.of_nat (length p)) <$> l)) as Hcat.
  { induction l as [|p l IH]; [done|]. cbn. rewrite length_app. lia. }
  rewrite Hcat, <- list_fmap_compose.
  set (g := λ c : Z, Z.of_nat (length (code_of (code_table text) c))).
  set (D := (λ p : Z * str, hd 0%Z p.2) <$> _count_frequencies text).
  transitivity (sumZ (g <$> text)); [done|].
  rewrite (sum_by_distinct g D text).
  - unfold D. rewrite <- list_fmap_compose. f_equal.
    apply list_fmap_ext. intros i [f s] Hp. apply list_elem_of_lookup_2 in Hp.
    apply _count_frequencies_elem in Hp as (c & -> & Hc & ->). done.
  - unfold D. apply NoDup_fmap_2_strong.
    + intros [f1 s1] [f2 s2] H1 H2.
      apply _count_frequencies_elem in H1 as (c1 & -> & _ & ->).
      apply _count_frequencies_elem in H2 as (c2 & -> & _ & ->). cbn. by intros ->.
    + apply (NoDup_fmap_1 snd), _count_frequencies_NoDup.
  - intros c Hc. unfold D. apply list_elem_of_fmap.
    exists (occurrences c text, [c]). split; [done|].
    apply _count_frequencies_elem. by exists c.
Qed.

(** ** The codes stored on the nodes *)




(** ** Decoding depends on the shape only *)

Lemma same_shape_decode_loop root root' :
  same_shape root root' →
  ∀ bits n n' acc, same_shape n n' →
  _decode_text_loop bits root n acc = _decode_text_loop bits root' n' acc.
Proof.
  intros Hroot. induction bits as [|bit bits IH]; intros n n' acc Hn; [done|].
  destruct n as [c f [l|] [r|] cd], n' as [c' f' [l'|] [r'|] cd']; cbn in Hn; try done.
  - destruct Hn as [Hl Hr]. cbn [_decode_text_loop left right].
    destruct bit.
    + destruct r as [cr fr [lr|] [rr|] cdr], r' as [cr' fr' [lr'|] [rr'|] cdr'];
        cbn in Hr; try done; cbn [left right char].
      * by apply IH.
      * subst. by apply IH.
    + destruct l as [cl fl [ll|] [rl|] cdl], l' as [cl' fl' [ll'|] [rl'|] cdl'];
        cbn in Hl; try done; cbn [left right char].
      * by apply IH.
      * subst. by apply IH.
  - cbn. by destruct bit.
Qed.

(** X18. [_decode_text] uses the branching of the tree and the characters
    of its leaves only: two trees of the same shape decode every bit
    sequence to the same text. *)
Theorem decode_text_same_shape bits t t' :
  same_shape t t' → _decode_text bits t = _decode_text bits t'.
Proof.
  intros H. unfold _decode_text. by rewrite (same_shape_decode_loop t t' H bits t t' []).
Qed.

Lemma decode_text_same_shape_witness :
  _decode_text [true; false]
    (new_node [97; 98]%Z 3 (Some (new_node [97%Z] 1 None None))
                           (Some (new_node [98%Z] 2 None None)))
  = _decode_text [true; false]
    (new_node [] 0 (Some (new_node [97%Z] 0 None None))
                   (Some (new_node [98%Z] 0 None None))).
Proof. apply decode_text_same_shape. cbn. tauto. Defined.

(** ** The size of the serialized tree *)

Lemma utf8_encode_char_length c b :
  utf8_encode_char c = Ok b → (1 ≤ length b ≤ 4)%nat.
Proof. unfold utf8_encode_char. repeat case_decide; intros [= <-]; cbn; lia. Qed.

Lemma encode_tree_size t : ∀ bs,
  char_leaves t → encode_tree t = Ok bs →
  (3 * length (leaves t) - 1 ≤ length bs ≤ 6 * length (leaves t) - 1)%nat.
Proof.
  induction t as [c f cd|c f l cd IHl|c f r cd IHr|c f l r cd IHl IHr] using node_ind;
    intros bs; cbn [encode_tree leaves]; try done.
  - intros Hc. apply Forall_cons in Hc as [(ch & Hch) _]. cbn in Hch. subst c.
    cbn [utf8_encode]. destruct (utf8_encode_char ch) as [b|e] eqn:Hb; [|done].
    step. intros [= <-]. apply utf8_encode_char_length in Hb.
    cbn [length]. rewrite length_app. cbn [length]. lia.
  - intros [Hcl Hcr]%char_leaves_inv.
    destruct (encode_tree l) as [a|e] eqn:Ha; [|done]. step.
    destruct (encode_tree r) as [b|e] eqn:Hb; [|done]. step.
    intros [= <-]. specialize (IHl a Hcl eq_refl). specialize (IHr b Hcr eq_refl).
    pose proof (leaves_nonempty l). pose proof (leaves_nonempty r).
    cbn [length]. rewrite !length_app. lia.
Qed.

(** X19. The serialized tree of a frequency list of [n] single characters
    has between [3 n - 1] and [6 n - 1] bytes: a tag for each of the
    [2 n - 1] nodes and one to four bytes for each character. *)
Theorem serialized_tree_size freq_list tree encoded :
  Forall (λ p : Z * str, ∃ c, p.2 = [c]) freq_list →
  _build_huffman_tree freq_list = Ok (Some tree) →
  _encode_tree tree = Ok encoded →
  (3 * length freq_list - 1 ≤ length encoded ≤ 6 * length freq_list - 1)%nat.
Proof.
  intros Hchars Hb He.
  assert (freq_list ≠ []) as Hne by (intros ->; discriminate).
  destruct (_build_huffman_tree_spec freq_list Hne) as (tree' & Hb' & _ & Hleaves).
  rewrite Hb in Hb'. injection Hb' as <-.
  assert (length (leaves tree) = length freq_list) as <-
    by (by rewrite Hleaves, length_fmap).
  apply encode_tree_size; [|done].
  unfold char_leaves. rewrite Hleaves. apply Forall_fmap.
  eapply Forall_impl; [exact Hchars|]. by intros [f c].
Qed.

Lemma serialized_tree_size_witness :
  (3 * length [(2, [97]); (1, [0x20AC])]%Z - 1
   ≤ length ["0"; "1"; "226"; "130"; "172"; "1"; "a"]%byte
   ≤ 6 * length [(2, [97]); (1, [0x20AC])]%Z - 1)%nat.
Proof.
  apply (serialized_tree_size [(2, [97]); (1, [0x20AC])]%Z
           (new_node [0x20AC; 97]%Z 3 (Some (new_node [0x20AC%Z] 1 None None))
                                      (Some (new_node [97%Z] 2 None None)))).
  - repeat constructor; by eexists.
  - vm_compute. reflexivity.
  - vm_compute. reflexivity.
Defined.

(** ** Bits that do not complete a code *)

Lemma decode_text_codes_app codes root text rest : ∀ acc,
  full root → is_internal root = true →
  (∀ c, c ∈ text → ([c], code_of codes c) ∈ paths root) →
  _decode_text_loop (concat (code_of codes <$> text) ++ rest) root root acc
  = _decode_text_loop rest root root (acc ++ ((λ c, [c]) <$> text)).
Proof.
  intros acc Hfull Hint. revert acc.
  induction text as [|c text IH]; intros acc Hc.
  - cbn. by rewrite app_nil_r.
  - rewrite !fmap_cons. cbn [concat]. rewrite <- (assoc_L (++)).
    rewrite (decode_path root [c]) by (try done; apply Hc, elem_of_cons; by left).
    rewrite IH.
    + by rewrite <- (assoc_L (++)).
    + intros c' Hc'. apply Hc, elem_of_cons. by right.
Qed.

Lemma decode_incomplete root : ∀ q n c r acc,
  full n → (c, q ++ r) ∈ paths n → r ≠ [] →
  _decode_text_loop q root n acc = acc.
Proof.
  induction q as [|b q IH]; intros n c r acc Hfull Hin Hr; [done|].
  destruct n as [ch f [l|] [r'|] cd]; cbn in Hfull; try done.
  2: { cbn in Hin. by apply list_elem_of_singleton in Hin. }
  destruct Hfull as [Hl Hr'].
  cbn [paths] in Hin. cbn [_decode_text_loop left right].
  assert (∀ m, full m → (c, q ++ r) ∈ paths m →
            match left m, right m with
            | None, None => _decode_text_loop q root root (acc ++ [char m])
            | _, _ => _decode_text_loop q root m acc
            end = acc) as Hm.
  { intros m Hfm Hpm. destruct m as [cm fm [lm|] [rm|] cdm]; try (by cbn in Hfm).
    - cbn [left right]. by apply (IH _ c r).
    - cbn in Hpm. apply list_elem_of_singleton in Hpm. injection Hpm as _ Hq.
      by apply app_nil in Hq as [_ ->]. }
  apply elem_of_app in Hin as [Hin|Hin];
    apply elem_of_paths_step in Hin as (q' & Hq & Hin); cbn [app] in Hq;
    injection Hq as -> <-; by apply Hm.
Qed.

(** X20. Bits after the last complete code are dropped: when the codes of
    a text are followed by the beginning of a code that is not complete,
    [_decode_text] returns the text. *)
Theorem decode_text_drops_incomplete codes root text c q r :
  full root → is_internal root = true →
  (∀ x, x ∈ text → ([x], code_of codes x) ∈ paths root) →
  (c, q ++ r) ∈ paths root → r ≠ [] →
  _decode_text (concat (code_of codes <$> text) ++ q) root = text.
Proof.
  intros Hfull Hint Hc Hq Hr. unfold _decode_text.
  rewrite decode_text_codes_app by done.
  rewrite (decode_incomplete root q root c r) by done.
  cbn [app]. apply concat_singletons.
Qed.

Lemma decode_text_drops_incomplete_witness :
  _decode_text
    (concat (code_of (<[ [97%Z] := Some [false] ]>
                        (<[ [98%Z] := Some [true; false] ]>
                           (<[ [99%Z] := Some [true; true] ]> ∅)))
             <$> [97; 98; 97]%Z) ++ [true])
    (new_node [] 0 (Some (new_node [97%Z] 0 None None))
       (Some (new_node [] 0 (Some (new_node [98%Z] 0 None None))
                            (Some (new_node [99%Z] 0 None None)))))
  = [97; 98; 97]%Z.
Proof.
  apply (decode_text_drops_incomplete _ _ _ [99%Z] [true] [true]).
  - cbn. tauto.
  - reflexivity.
  - intros x Hx. apply list_elem_of_In in Hx. cbn in Hx.
    destruct Hx as [<-|[<-|[<-|[]]]]; vm_compute; apply list_elem_of_In; cbn; tauto.
  - vm_compute. apply list_elem_of_In. cbn. tauto.
  - discriminate.
Defined.

(** ** Every bit sequence is decoded *)

Lemma descend_snoc n : ∀ q m b l r,
  descend n q = Some m → left m = Some l → right m = Some r →
  descend n (q ++ [b]) = Some (if b then r else l).
Proof.
  intros q. revert n. induction q as [|b' q IH]; intros n m b l r; cbn [descend app].
  - intros Hd Hl Hr. simplify_eq. destruct m as [c f ln rn cd]. cbn in Hl, Hr.
    subst. reflexivity.
  - destruct n as [c f [ln|] [rn|] cd]; try done. apply IH.
Qed.

Lemma descend_paths n : ∀ q m c p,
  descend n q = Some m → (c, p) ∈ paths m → (c, q ++ p) ∈ paths n.
Proof.
  intros q. revert n. induction q as [|b q IH]; intros n m c p; cbn [descend app].
  - intros Hd. by simplify_eq.
  - destruct n as [ch f [l|] [r|] cd]; try done.
    intros Hd Hp. specialize (IH _ _ _ _ Hd Hp). cbn [paths]. apply elem_of_app.
    destruct b; [right | left]; apply list_elem_of_fmap; by exists (c, q ++ p).
Qed.

Lemma descend_full n : ∀ q m, full n → descend n q = Some m → full m.
Proof.
  intros q. revert n. induction q as [|b q IH]; intros n m Hf; cbn [descend].
  - intros Hd. by simplify_eq.
  - destruct n as [ch f [l|] [r|] cd]; try done. destruct Hf as [Hl Hr].
    destruct b; by apply IH.
Qed.

Lemma internal_path n :
  is_internal n = true → ∃ c b p, (c, b :: p) ∈ paths n.
Proof.
  destruct n as [ch f [l|] [r|] cd]; try done. intros _.
  assert (∃ c p, (c, p) ∈ paths l) as (c & p & Hp).
  { clear. induction l as [c f cd|c f l' cd IHl|c f r' cd IHr|c f l' r' cd IHl IHr]
      using node_ind; cbn [paths].
    1-3: eexists _, _; by apply list_elem_of_singleton.
    destruct IHl as (c' & p' & Hp'). exists c', (false :: p').
    apply elem_of_app. left. apply list_elem_of_fmap. by exists (c', p'). }
  exists c, false, p. cbn [paths]. apply elem_of_app. left.
  apply list_elem_of_fmap. by exists (c, p).
Qed.

Lemma decode_loop_total root :
  full root → is_internal root = true →
  ∀ bits q n acc,
    descend root q = Some n → is_internal n = true →
    ∃ (ps : list (str * bitarray)) rest,
      Forall (λ cp, cp ∈ paths root) ps
      ∧ q ++ bits = concat (snd <$> ps) ++ rest
      ∧ _decode_text_loop bits root n acc = acc ++ (fst <$> ps)
      ∧ ∃ c r, r ≠ [] ∧ (c, rest ++ r) ∈ paths root.
Proof.
  intros Hfull Hint. induction bits as [|b bits IH]; intros q n acc Hq Hn.
  - exists [], q. rewrite !app_nil_r.
    split; [constructor|]. split; [done|]. split; [done|].
    destruct (internal_path n Hn) as (c & b & p & Hp).
    exists c, (b :: p). split; [done|]. by eapply descend_paths.
  - pose proof (descend_full root q n Hfull Hq) as Hfn.
    assert (∀ m, full m → descend root (q ++ [b]) = Some m →
              ∃ (ps : list (str * bitarray)) rest,
                Forall (λ cp, cp ∈ paths root) ps
                ∧ (q ++ [b]) ++ bits = concat (snd <$> ps) ++ rest
                ∧ match left m, right m with
                  | None, None => _decode_text_loop bits root root (acc ++ [char m])
                  | _, _ => _decode_text_loop bits root m acc
                  end = acc ++ (fst <$> ps)
                ∧ ∃ c r, r ≠ [] ∧ (c, rest ++ r) ∈ paths root) as Hstep.
    { intros m Hfm Hm.
      destruct m as [cm fm [lm|] [rm|] cdm]; try (by cbn in Hfm); cbn [left right char].
      - by apply IH.
      - destruct (IH [] root (acc ++ [cm])) as (ps & rest & Hps & Hbits & Hloop & Hrest);
          [done..|].
        exists ((cm, q ++ [b]) :: ps), rest. split; [|split; [|split; [|done]]].
        + constructor; [|done]. rewrite <- (app_nil_r (q ++ [b])).
          apply (descend_paths root (q ++ [b]) _ cm [] Hm). cbn.
          by apply list_elem_of_singleton.
        + rewrite fmap_cons. cbn [concat snd]. cbn [app] in Hbits.
          by rewrite Hbits, (assoc_L (++)).
        + rewrite Hloop, fmap_cons. cbn [fst]. by rewrite <- (assoc_L (++)). }
    replace (q ++ b :: bits) with ((q ++ [b]) ++ bits) by by rewrite <- (assoc_L (++)).
    destruct n as [ch f [l|] [r|] cd]; try done. destruct Hfn as [Hfl Hfr].
    pose proof (descend_snoc root q _ b l r Hq eq_refl eq_refl) as Hm.
    destruct b; cbn [_decode_text_loop left right];
      [apply (Hstep r) | apply (Hstep l)]; done.
Qed.

(** X21. With a tree in which every node has no child or two children, and
    whose root has two, every bit sequence is decoded: it is a sequence of
    codes of leaves followed by a rest that is the beginning of a code and
    not a whole one, and the text returned is the characters of those
    leaves in order. *)
Theorem decode_text_total root bits :
  full root → is_internal root = true →
  ∃ (ps : list (str * bitarray)) rest,
    Forall (λ cp, cp ∈ paths root) ps
    ∧ bits = concat (snd <$> ps) ++ rest
    ∧ _decode_text bits root = concat (fst <$> ps)
    ∧ ∃ c r, r ≠ [] ∧ (c, rest ++ r) ∈ paths root.
Proof.
  intros Hfull Hint.
  destruct (decode_loop_total root Hfull Hint bits [] root []) as (ps & rest & H1 & H2 & H3 & H4);
    [done..|].
  exists ps, rest. unfold _decode_text. rewrite H3. by repeat split.
Qed.

Lemma decode_text_total_witness :
  ∃ (ps : list (str * bitarray)) rest,
    Forall (λ cp, cp ∈ paths (new_node [] 0 (Some (new_node [97%Z] 0 None None))
                                             (Some (new_node [98%Z] 0 None None)))) ps
    ∧ [true; false; false] = concat (snd <$> ps) ++ rest
    ∧ _decode_text [true; false; false]
        (new_node [] 0 (Some (new_node [97%Z] 0 None None))
                       (Some (new_node [98%Z] 0 None None)))
      = concat (fst <$> ps)
    ∧ ∃ c r, r ≠ [] ∧ (c, rest ++ r)
        ∈ paths (new_node [] 0 (Some (new_node [97%Z] 0 None None))
                               (Some (new_node [98%Z] 0 None None))).
Proof. apply decode_text_total; [cbn; tauto | reflexivity]. Defined.

(** ** The order of the heap and of the tree built on it *)

Module heap_order.
Import heapq heapq_facts.

Lemma parent_lt i : (0 < i → (i - 1) / 2 < i)%nat.
Proof. intros. apply Nat.Div0.div_lt_upper_bound. lia. Qed.

Lemma child_range i pos :
  (0 < i)%nat → ((i - 1) / 2)%nat = pos → i = (2 * pos + 1)%nat ∨ i = (2 * pos + 2)%nat.
Proof.
  intros Hi <-.
  pose proof (Nat.div_mod_eq (i - 1) 2).
  pose proof (Nat.mod_upper_bound (i - 1) 2).
  lia.
Qed.

Lemma parent_of_child i pos :
  i = (2 * pos + 1)%nat ∨ i = (2 * pos + 2)%nat → ((i - 1) / 2)%nat = pos.
Proof.
  intros Hi.
  pose proof (Nat.div_mod_eq (i - 1) 2).
  pose proof (Nat.mod_upper_bound (i - 1) 2).
  lia.
Qed.

Lemma node_lt_true x y : node_lt x y = true → (freq x < freq y)%Z.
Proof. unfold node_lt. lia. Qed.

Lemma node_lt_false x y : node_lt x y = false → (freq y ≤ freq x)%Z.
Proof. unfold node_lt. lia. Qed.

(** Filling the hole with an item between its parent and its children
    gives a heap. *)
Lemma hole_fill heap pos newitem :
  (pos < length heap)%nat →
  hole_ordered heap pos → fits_above heap pos newitem →
  (∀ p, (0 < pos)%nat → heap !! ((pos - 1) / 2)%nat = Some p →
     (freq p ≤ freq newitem)%Z) →
  heap_ordered (<[pos:=newitem]> heap).
Proof.
  intros Hlen [H1 H2] Hb Hp i x p Hi Hx Hpx.
  destruct (decide (i = pos)) as [->|Hne].
  - rewrite list_lookup_insert_eq in Hx by done. simplify_eq.
    pose proof (parent_lt pos Hi).
    rewrite list_lookup_insert_ne in Hpx by lia. by apply Hp.
  - rewrite list_lookup_insert_ne in Hx by done.
    destruct (decide (((i - 1) / 2)%nat = pos)) as [E|Hne'].
    + rewrite E in Hpx. rewrite list_lookup_insert_eq in Hpx by done.
      simplify_eq. by apply (Hb i).
    + rewrite list_lookup_insert_ne in Hpx by done. by apply (H1 i).
Qed.

Lemma hole_ordered_insert heap pos x :
  hole_ordered heap pos → hole_ordered (<[pos:=x]> heap) pos.
Proof.
  intros [H1 H2]. split.
  - intros i y p Hi Hne Hne' Hy Hp.
    rewrite list_lookup_insert_ne in Hy by done.
    rewrite list_lookup_insert_ne in Hp by done. by apply (H1 i).
  - intros i y g Hpos Hi E Hy Hg.
    pose proof (parent_lt pos Hpos).
    destruct (child_range i pos Hi E).
    + rewrite list_lookup_insert_ne in Hy by lia.
      rewrite list_lookup_insert_ne in Hg by lia. by apply (H2 i).
    + rewrite list_lookup_insert_ne in Hy by lia.
      rewrite list_lookup_insert_ne in Hg by lia. by apply (H2 i).
Qed.

(** A step of [_siftdown]: the parent moves into the hole. *)
Lemma hole_up heap pos parent :
  (0 < pos)%nat → (pos < length heap)%nat →
  heap !! ((pos - 1) / 2)%nat = Some parent →
  hole_ordered heap pos →
  hole_ordered (<[pos:=parent]> heap) ((pos - 1) / 2).
Proof.
  intros Hpos Hlen Hpar [H1 H2].
  pose proof (parent_lt pos Hpos) as Hlt.
  split.
  - intros i x p Hi Hne Hne' Hx Hp.
    destruct (decide (i = pos)) as [->|Hip]; [done|].
    rewrite list_lookup_insert_ne in Hx by done.
    destruct (decide (((i - 1) / 2)%nat = pos)) as [E|Hnp].
    + rewrite E in Hp. rewrite list_lookup_insert_eq in Hp by done.
      simplify_eq. by apply (H2 i).
    + rewrite list_lookup_insert_ne in Hp by done. by apply (H1 i).
  - intros i x g Hpp Hi E Hx Hg.
    pose proof (parent_lt _ Hpp) as Hlt'.
    rewrite list_lookup_insert_ne in Hg by lia.
    assert (freq g ≤ freq parent)%Z as Hgp.
    { apply (H1 ((pos - 1) / 2)%nat); [done | lia | lia | done..]. }
    destruct (decide (i = pos)) as [->|Hip].
    + rewrite list_lookup_insert_eq in Hx by done. by simplify_eq.
    + rewrite list_lookup_insert_ne in Hx by done.
      assert (freq parent ≤ freq x)%Z; [|lia].
      apply (H1 i); [done | done | lia | done |]. by rewrite E.
Qed.

Lemma fits_above_up heap pos parent newitem :
  (0 < pos)%nat → (pos < length heap)%nat →
  heap !! ((pos - 1) / 2)%nat = Some parent →
  hole_ordered heap pos → (freq newitem < freq parent)%Z →
  fits_above (<[pos:=parent]> heap) ((pos - 1) / 2) newitem.
Proof.
  intros Hpos Hlen Hpar [H1 H2] Hlt i x Hi E Hx.
  pose proof (parent_lt pos Hpos).
  destruct (decide (i = pos)) as [->|Hip].
  - rewrite list_lookup_insert_eq in Hx by done. simplify_eq. lia.
  - rewrite list_lookup_insert_ne in Hx by done.
    assert (freq parent ≤ freq x)%Z; [|lia].
    apply (H1 i); [done | done | lia | done |]. by rewrite E.
Qed.

Lemma _siftdown_loop_ordered fuel : ∀ heap newitem pos heap' pos',
  _siftdown_loop node_lt fuel heap newitem 0 pos = Ok (heap', pos') →
  (pos < length heap)%nat →
  hole_ordered heap pos → fits_above heap pos newitem →
  (pos' < length heap')%nat ∧ heap_ordered (<[pos':=newitem]> heap').
Proof.
  induction fuel as [|fuel IH]; intros heap newitem pos heap' pos' Hrun Hlen Hord Hfit;
    cbn [_siftdown_loop] in Hrun; case_decide as Hpos.
  - done.
  - simplify_eq. split; [done|]. apply hole_fill; [done..|]. intros; lia.
  - unfold getitem in Hrun.
    destruct (heap !! ((pos - 1) / 2)%nat) as [parent|] eqn:Hpar; [|done].
    cbn [mbind outcome_bind] in Hrun.
    destruct (node_lt newitem parent) eqn:Hlt.
    + unfold setitem in Hrun. rewrite decide_True in Hrun by done.
      cbn [mbind outcome_bind] in Hrun.
      apply IH in Hrun; [done|..].
      * rewrite length_insert. pose proof (parent_lt pos Hpos). lia.
      * by apply hole_up.
      * apply fits_above_up; [done..|]. by apply node_lt_true.
    + simplify_eq. split; [done|]. apply hole_fill; [done..|].
      intros p _ Hp. simplify_eq. by apply node_lt_false.
  - simplify_eq. split; [done|]. apply hole_fill; [done..|]. intros; lia.
Qed.

Lemma _siftdown_ordered heap pos newitem heap' :
  _siftdown node_lt heap 0 pos = Ok heap' →
  heap !! pos = Some newitem →
  hole_ordered heap pos → fits_above heap pos newitem →
  heap_ordered heap'.
Proof.
  unfold _siftdown. intros Hrun Hnew Hord Hfit.
  rewrite (getitem_lookup _ _ _ Hnew) in Hrun. cbn [mbind outcome_bind] in Hrun.
  destruct (_siftdown_loop node_lt pos heap newitem 0 pos) as [[h1 p1]|] eqn:Hloop; [|done].
  cbn [mbind outcome_bind] in Hrun.
  apply _siftdown_loop_ordered in Hloop as [Hp1 Hh1]; [|by eapply lookup_lt_Some|done..].
  unfold setitem in Hrun. rewrite decide_True in Hrun by done. by simplify_eq.
Qed.

Lemma heappush_ordered heap item heap' :
  heappush node_lt heap item = Ok heap' →
  heap_ordered heap → heap_ordered heap'.
Proof.
  unfold heappush. intros Hrun Hord.
  assert (length (heap ++ [item]) - 1 = length heap)%nat as E.
  { rewrite length_app. cbn [length]. lia. }
  rewrite E in Hrun.
  apply (_siftdown_ordered _ _ item) in Hrun; [done|..].
  - rewrite lookup_app_r by done. by rewrite Nat.sub_diag.
  - split.
    + intros i x p Hi Hne Hne' Hx Hp.
      pose proof (lookup_lt_Some _ _ _ Hx) as Hl.
      rewrite length_app in Hl. cbn [length] in Hl.
      pose proof (parent_lt i Hi).
      rewrite lookup_app_l in Hx by lia.
      rewrite lookup_app_l in Hp by lia.
      by apply (Hord i).
    + intros i x g _ Hi Ei Hx _.
      pose proof (lookup_lt_Some _ _ _ Hx) as Hl.
      rewrite length_app in Hl. cbn [length] in Hl.
      destruct (child_range i _ Hi Ei); lia.
  - intros i x Hi Ei Hx.
    pose proof (lookup_lt_Some _ _ _ Hx) as Hl.
    rewrite length_app in Hl. cbn [length] in Hl.
    destruct (child_range i _ Hi Ei); lia.
Qed.

(** A step of [_siftup]: the lighter child moves into the hole. *)
Lemma hole_down heap pos childpos child :
  (pos < length heap)%nat →
  childpos = (2 * pos + 1)%nat ∨ childpos = (2 * pos + 2)%nat →
  heap !! childpos = Some child →
  hole_ordered heap pos →
  (∀ i x, i = (2 * pos + 1)%nat ∨ i = (2 * pos + 2)%nat → heap !! i = Some x →
     (freq child ≤ freq x)%Z) →
  hole_ordered (<[pos:=child]> heap) childpos.
Proof.
  intros Hlen Hcp Hchild [H1 H2] Hmin.
  pose proof (parent_of_child _ _ Hcp) as Epar.
  split.
  - intros i x p Hi Hne Hne' Hx Hp.
    destruct (decide (i = pos)) as [->|Hip].
    + rewrite list_lookup_insert_eq in Hx by done.
      assert (x = child) as -> by congruence.
      pose proof (parent_lt pos Hi).
      rewrite list_lookup_insert_ne in Hp by lia.
      apply (H2 childpos); [done | lia | done..].
    + rewrite list_lookup_insert_ne in Hx by done.
      destruct (decide (((i - 1) / 2)%nat = pos)) as [E|Hnp].
      * rewrite E in Hp. rewrite list_lookup_insert_eq in Hp by done.
        assert (p = child) as -> by congruence.
        apply (Hmin i); [|done]. by apply child_range.
      * rewrite list_lookup_insert_ne in Hp by done. by apply (H1 i).
  - intros i x g Hc Hi E Hx Hg.
    rewrite Epar in Hg. rewrite list_lookup_insert_eq in Hg by done.
    assert (g = child) as -> by congruence.
    destruct (child_range i _ Hi E) as [Ei|Ei].
    + rewrite list_lookup_insert_ne in Hx by lia.
      apply (H1 i); [done | lia | lia | done |]. by rewrite E.
    + rewrite list_lookup_insert_ne in Hx by lia.
      apply (H1 i); [done | lia | lia | done |]. by rewrite E.
Qed.

Lemma _siftup_loop_ordered fuel : ∀ heap endpos pos heap' pos',
  endpos = length heap →
  _siftup_loop node_lt fuel heap endpos pos (2 * pos + 1) = Ok (heap', pos') →
  (pos < length heap)%nat → hole_ordered heap pos →
  hole_ordered heap' pos' ∧ (pos' < length heap')%nat
  ∧ (length heap' ≤ 2 * pos' + 1)%nat.
Proof.
  induction fuel as [|fuel IH]; intros heap endpos pos heap' pos' -> Hrun Hlen Hord;
    cbn [_siftup_loop] in Hrun; case_decide as Hc.
  - done.
  - simplify_eq. split; [done|]. lia.
  - destruct (lookup_lt_is_Some_2 heap (2 * pos + 1)) as [c Hcl]; [done|].
    assert (∃ childpos child,
      (childpos = (2 * pos + 1)%nat ∨ childpos = (2 * pos + 2)%nat)
      ∧ heap !! childpos = Some child
      ∧ (∀ i x, i = (2 * pos + 1)%nat ∨ i = (2 * pos + 2)%nat →
           heap !! i = Some x → (freq child ≤ freq x)%Z)
      ∧ (if decide (2 * pos + 1 + 1 < length heap)%nat then
           c ← getitem heap (2 * pos + 1)%nat;
           r ← getitem heap (2 * pos + 1 + 1)%nat;
           Ok (if negb (node_lt c r) then (2 * pos + 1 + 1)%nat else (2 * pos + 1)%nat)
         else Ok (2 * pos + 1)%nat) = Ok childpos)
      as (childpos & child & Hcp & Hchild & Hmin & E).
    { case_decide as Hr.
      - destruct (lookup_lt_is_Some_2 heap (2 * pos + 1 + 1)) as [r Hrl]; [done|].
        rewrite (getitem_lookup _ _ _ Hcl), (getitem_lookup _ _ _ Hrl).
        cbn [mbind outcome_bind].
        destruct (node_lt c r) eqn:Hlt; cbn [negb].
        + exists (2 * pos + 1)%nat, c. split; [by left|]. split; [done|].
          split; [|done]. apply node_lt_true in Hlt.
          intros i x [->| ->] Hx.
          * simplify_eq. lia.
          * replace (2 * pos + 2)%nat with (2 * pos + 1 + 1)%nat in Hx by lia.
            simplify_eq. lia.
        + exists (2 * pos + 1 + 1)%nat, r. split; [right; lia|]. split; [done|].
          split; [|done]. apply node_lt_false in Hlt.
          intros i x [->| ->] Hx.
          * by simplify_eq.
          * replace (2 * pos + 2)%nat with (2 * pos + 1 + 1)%nat in Hx by lia.
            simplify_eq. lia.
      - exists (2 * pos + 1)%nat, c. split; [by left|]. split; [done|].
        split; [|done].
        intros i x [->| ->] Hx.
        + simplify_eq. lia.
        + apply lookup_lt_Some in Hx. lia. }
    rewrite E in Hrun. cbn [mbind outcome_bind] in Hrun.
    rewrite (getitem_lookup _ _ _ Hchild) in Hrun. cbn [mbind outcome_bind] in Hrun.
    unfold setitem in Hrun. rewrite decide_True in Hrun by done.
    cbn [mbind outcome_bind] in Hrun.
    apply IH in Hrun.
    + done.
    + by rewrite length_insert.
    + rewrite length_insert. by eapply lookup_lt_Some.
    + by apply hole_down.
  - simplify_eq. split; [done|]. lia.
Qed.

Lemma _siftup_ordered heap heap' :
  _siftup node_lt heap 0 = Ok heap' →
  hole_ordered heap 0 → heap_ordered heap'.
Proof.
  unfold _siftup. intros Hrun Hord. unfold getitem at 1 in Hrun.
  destruct (heap !! 0%nat) as [newitem|] eqn:Hnew; [|done].
  cbn [mbind outcome_bind] in Hrun.
  destruct (_siftup_loop node_lt (length heap) heap (length heap) 0 (2 * 0 + 1))
    as [[h1 p1]|] eqn:Hloop; [|done].
  cbn [mbind outcome_bind] in Hrun.
  apply _siftup_loop_ordered in Hloop as (Hh1 & Hp1 & Hleaf);
    [|done|by eapply lookup_lt_Some|done].
  unfold setitem at 1 in Hrun. rewrite decide_True in Hrun by done.
  cbn [mbind outcome_bind] in Hrun.
  apply (_siftdown_ordered _ _ newitem) in Hrun; [done|..].
  - by apply list_lookup_insert_eq.
  - by apply hole_ordered_insert.
  - intros i x Hi Ei Hx. apply lookup_lt_Some in Hx.
    rewrite length_insert in Hx.
    destruct (child_range i _ Hi Ei); lia.
Qed.

(** The root of a heap is a lightest element. *)
Lemma root_min heap root :
  heap_ordered heap → heap !! 0%nat = Some root →
  ∀ x, x ∈ heap → (freq root ≤ freq x)%Z.
Proof.
  intros Hord Hroot x [i Hx]%list_elem_of_lookup. revert x Hx.
  induction (lt_wf i) as [i _ IH]. intros x Hx.
  destruct (decide (i = 0)%nat) as [->|Hi].
  - simplify_eq. lia.
  - assert (0 < i)%nat as Hpos by lia.
    pose proof (parent_lt i Hpos) as Hlt.
    destruct (lookup_lt_is_Some_2 heap ((i - 1) / 2)) as [p Hp].
    { apply lookup_lt_Some in Hx. lia. }
    pose proof (IH _ Hlt p Hp). pose proof (Hord i x p Hpos Hx Hp). lia.
Qed.

Lemma heap_ordered_nil : heap_ordered [].
Proof. intros i x p _ Hx. done. Qed.

Lemma heappop_ordered heap x heap' :
  heappop node_lt heap = Ok (x, heap') →
  heap_ordered heap →
  heap_ordered heap' ∧ ∀ y, y ∈ heap → (freq x ≤ freq y)%Z.
Proof.
  unfold heappop, list_pop. intros Hrun Hord.
  destruct (last heap) as [lastelt|] eqn:Hlast; [|done].
  apply last_Some in Hlast as [heap0 ->]. rewrite removelast_last in Hrun.
  cbn [mbind outcome_bind] in Hrun.
  destruct heap0 as [|returnitem heap0].
  - simplify_eq. split; [apply heap_ordered_nil|].
    intros y ->%list_elem_of_singleton. lia.
  - rewrite (getitem_lookup _ 0 returnitem) in Hrun by done.
    cbn [mbind outcome_bind] in Hrun.
    unfold setitem in Hrun. rewrite decide_True in Hrun by (cbn [length]; lia).
    cbn [mbind outcome_bind] in Hrun.
    destruct (_siftup node_lt (<[0%nat:=lastelt]> (returnitem :: heap0)) 0)
      as [h1|] eqn:Hup; [|done].
    cbn [mbind outcome_bind] in Hrun. simplify_eq. split.
    + apply _siftup_ordered in Hup; [done|]. split; [|intros; lia].
      intros i y p Hi _ Hne Hy Hp.
      destruct i as [|i]; [lia|].
      destruct ((S i - 1) / 2)%nat as [|j] eqn:Ej; [done|].
      cbn in Hy, Hp.
      apply (Hord (S i) y p); [done|..].
      * cbn. by apply lookup_app_l_Some.
      * rewrite Ej. cbn. by apply lookup_app_l_Some.
    + by apply root_min.
Qed.
End heap_order.

Lemma _build_init_ordered freq_list : ∀ nodes nodes',
  _build_init freq_list nodes = Ok nodes' →
  heap_ordered nodes → Forall left_lighter nodes →
  heap_ordered nodes' ∧ Forall left_lighter nodes'.
Proof.
  induction freq_list as [|[f c] rest IH]; intros nodes nodes' Hrun Hord Hall;
    cbn [_build_init] in Hrun.
  - by simplify_eq.
  - destruct (heapq_facts.heappush_spec node_lt nodes (new_node c f None None))
      as (n1 & Hpush & Hp).
    rewrite Hpush in Hrun. cbn [mbind outcome_bind] in Hrun.
    apply IH in Hrun; [done|..].
    + by apply (heap_order.heappush_ordered _ _ _ Hpush).
    + rewrite Hp. by constructor.
Qed.

Lemma _build_merge_ordered fuel : ∀ nodes nodes',
  _build_merge fuel nodes = Ok nodes' →
  heap_ordered nodes → Forall left_lighter nodes →
  Forall left_lighter nodes'.
Proof.
  induction fuel as [|fuel IH]; intros nodes nodes' Hrun Hord Hall;
    cbn [_build_merge] in Hrun; case_decide as Hlen.
  - done.
  - by simplify_eq.
  - destruct (heapq_facts.heappop_spec node_lt nodes) as (l & n1 & Hpop1 & Hp1).
    { intros ->. cbn in Hlen. lia. }
    rewrite Hpop1 in Hrun. cbn [mbind outcome_bind] in Hrun.
    destruct (heapq_facts.heappop_spec node_lt n1) as (r & n2 & Hpop2 & Hp2).
    { intros ->. apply Permutation_length in Hp1. cbn in Hp1. lia. }
    rewrite Hpop2 in Hrun. cbn [mbind outcome_bind] in Hrun.
    destruct (heapq_facts.heappush_spec node_lt n2 (merge_nodes l r))
      as (n3 & Hpush & Hp3).
    unfold merge_nodes in Hpush at 1. rewrite Hpush in Hrun.
    cbn [mbind outcome_bind] in Hrun.
    apply heap_order.heappop_ordered in Hpop1 as [Hord1 Hmin1]; [|done].
    apply heap_order.heappop_ordered in Hpop2 as [Hord2 _]; [|done].
    apply IH in Hrun; [done|..].
    + by apply (heap_order.heappush_ordered _ _ _ Hpush).
    + rewrite Hp3. rewrite Hp1, Hp2 in Hall.
      apply Forall_cons in Hall as [Hl Hall].
      apply Forall_cons in Hall as [Hr Hall].
      constructor; [|done].
      cbn. split; [|done]. apply Hmin1. rewrite Hp1, Hp2.
      apply list_elem_of_further, list_elem_of_here.
  - by simplify_eq.
Qed.

(** X22.  In the tree that [_build_huffman_tree] returns, the left child
    of every internal node has a frequency not greater than that of the
    right child: the node popped first from the heap is a lightest one. *)
Theorem left_child_lighter freq_list tree :
  _build_huffman_tree freq_list = Ok (Some tree) → left_lighter tree.
Proof.
  unfold _build_huffman_tree. intros Hrun. case_decide as Hlen; [done|].
  destruct (_build_init freq_list []) as [n1|] eqn:Hinit; [|done].
  cbn [mbind outcome_bind] in Hrun.
  apply _build_init_ordered in Hinit as [Hord1 Hall1];
    [|apply heap_order.heap_ordered_nil|constructor].
  destruct (_build_merge (length n1) n1) as [n2|] eqn:Hmerge; [|done].
  cbn [mbind outcome_bind] in Hrun.
  apply _build_merge_ordered in Hmerge; [|done..].
  destruct (heapq.heappop node_lt n2) as [[t n3]|] eqn:Hpop; [|done].
  cbn [mbind outcome_bind] in Hrun. simplify_eq.
  destruct (heapq_facts.heappop_spec node_lt n2) as (t' & n3' & Hpop' & Hp).
  { intros ->. done. }
  rewrite Hpop in Hpop'. simplify_eq.
  rewrite Hp in Hmerge. by apply Forall_cons in Hmerge as [? _].
Qed.

Lemma left_child_lighter_witness :
  left_lighter (new_node [97; 98]%Z 3 (Some (new_node [97%Z] 1 None None))
                                      (Some (new_node [98%Z] 2 None None))).
Proof. apply (left_child_lighter [(2, [98]); (1, [97])]%Z). reflexivity. Defined.
